(** * StocksTradeSignal: a shallow embedding of the signal monitor

    The program polls price bars for a watchlist, computes a fast and a
    slow moving average and a momentum oscillator, detects crossover
    signals, de-duplicates them per symbol, and notifies by e-mail while
    appending to a CSV log.

    Numbers.  A Python float is modelled as [option Q]: [None] is NaN, and
    [Some q] is the number [q], with exact rational arithmetic in place of
    binary64 rounding.  Comparisons follow IEEE-754 as Python exposes it:
    every ordered comparison with NaN is false.  A Python int is a [Z]; the
    comparison of a float with an int is exact in Python, so it is the
    comparison with [inject_Z]. *)

From Stdlib Require Import QArith ZArith Lia Lqa Ascii String.
From stdpp Require Import gmap strings list.

Local Open Scope Z_scope.

(** ** Floats *)

Abbreviation float := (option Q).
Definition NaN : float := None.

Definition of_int (z : Z) : float := Some (inject_Z z).

Definition float_le (a b : float) : bool :=
  match a, b with
  | Some x, Some y => Qle_bool x y
  | _, _ => false
  end.

Definition float_lt (a b : float) : bool :=
  match a, b with
  | Some x, Some y => negb (Qle_bool y x)
  | _, _ => false
  end.

Definition float_ge (a b : float) : bool := float_le b a.
Definition float_gt (a b : float) : bool := float_lt b a.

(** ** Exceptions and results *)

Inductive exn : Type :=
| IndexError
| ValueError
| OSError
| ConnectionError.

Inductive result (A : Type) : Type :=
| Ok (a : A)
| Raise (e : exn).
Arguments Ok {A} a.
Arguments Raise {A} e.

Global Instance result_ret : MRet result := fun A a => Ok a.

Global Instance result_bind : MBind result := fun A B k r =>
  match r with
  | Ok a => k a
  | Raise e => Raise e
  end.

(** ** Configuration: the module-level constants read from the environment *)

Record config : Type := {
  WATCHLIST : list string;
  FAST_SMA : Z;
  SLOW_SMA : Z;
  RSI_PERIOD : Z;
  RSI_OVERSOLD : Z;
  RSI_OVERBOUGHT : Z
}.

(** The defaults of the [os.getenv] calls. *)
Definition default_config : config := {|
  WATCHLIST := ["AAPL"%string];
  FAST_SMA := 9;
  SLOW_SMA := 21;
  RSI_PERIOD := 14;
  RSI_OVERSOLD := 30;
  RSI_OVERBOUGHT := 70
|}.

(** ** Frames *)

(** One row of the frame once [compute_indicators] has added its columns. *)
Record row : Type := {
  close : float;
  sma_fast : float;
  sma_slow : float;
  rsi : float
}.

Abbreviation frame := (list row).

(** [df.iloc[[i]]] for an integer position [i]: negative positions count
    from the end, and a position outside [-len, len) raises IndexError. *)
Definition iloc (df : frame) (i : Z) : result row :=
  let n := Z.of_nat (length df) in
  if (i <? - n) || (n <=? i) then Raise IndexError
  else
    match df !! Z.to_nat (if i <? 0 then n + i else i) with
    | Some r => Ok r
    | None => Raise IndexError
    end.

(** ** Signals *)

(** The strings ["buy"] and ["sell"] that [detect_signals] returns; [None]
    is the absence of a signal. *)
Inductive signal : Type := buy | sell.

Global Instance signal_eq_dec : EqDecision signal.
Proof. solve_decision. Defined.

Definition cross_up (prev last : row) : bool :=
  float_le (sma_fast prev) (sma_slow prev) && float_gt (sma_fast last) (sma_slow last).

Definition cross_down (prev last : row) : bool :=
  float_ge (sma_fast prev) (sma_slow prev) && float_lt (sma_fast last) (sma_slow last).

Definition buy_branch (cfg : config) (prev last : row) : bool :=
  cross_up prev last && float_gt (rsi last) (of_int (RSI_OVERSOLD cfg)).

Definition sell_branch (cfg : config) (prev last : row) : bool :=
  cross_down prev last && float_lt (rsi last) (of_int (RSI_OVERBOUGHT cfg)).

Definition detect_signals (cfg : config) (df : frame) : result (option signal) :=
  if Z.of_nat (length df) <? Z.max (FAST_SMA cfg) (SLOW_SMA cfg) + 1 then Ok None
  else
    last ← iloc df (-1);
    prev ← iloc df (-2);
    if buy_branch cfg prev last then Ok (Some buy)
    else if sell_branch cfg prev last then Ok (Some sell)
    else Ok None.

(** ** Indicators

    [compute_indicators] delegates to two library calls whose code is not
    part of the program: [Series.rolling(window).mean()] and
    [RSIIndicator(close, window).rsi()].  Their results are modelled below
    from the specification of the indicator engine. *)

Definition Qsum (l : list Q) : Q := foldr Qplus 0%Q l.

Definition mean (l : list Q) : Q := (Qsum l / inject_Z (Z.of_nat (length l)))%Q.

(** The bars of the trailing window that ends at index [i], inclusive. *)
Definition trailing (w : nat) (xs : list Q) (i : nat) : list Q :=
  take w (drop (S i - w) xs).

(** Modelled from the spec: the moving average that
    [rolling(window=w).mean()] yields at index [i]: the arithmetic mean of
    [close] over the trailing [w] bars ending at [i], absent while fewer than
    [w] bars are available. *)
Definition sma_at (w : nat) (xs : list Q) (i : nat) : float :=
  if (S i <? w)%nat then NaN else Some (mean (trailing w xs i)).

Definition rolling_mean (w : nat) (xs : list Q) : list float :=
  imap (fun i _ => sma_at w xs i) xs.

(** Bar-to-bar close deltas: entry [j] is [xs[j+1] - xs[j]]. *)
Definition deltas (xs : list Q) : list Q :=
  zip_with Qminus (drop 1 xs) xs.

Definition gain (d : Q) : Q := if Qle_bool 0 d then d else 0%Q.
Definition loss (d : Q) : Q := if Qle_bool d 0 then (- d)%Q else 0%Q.

(** Modelled from the spec: [100 - 100/(1+RS)] with [RS = avgGain/avgLoss],
    and 100 when the average loss is zero. *)
Definition oscillator (avg_gain avg_loss : Q) : Q :=
  if Qeq_bool avg_loss 0 then 100%Q
  else (100 - 100 / (1 + avg_gain / avg_loss))%Q.

(** The [w] deltas that end at bar [i]: [xs[i-w+1]-xs[i-w] .. xs[i]-xs[i-1]]. *)
Definition trailing_deltas (w : nat) (xs : list Q) (i : nat) : list Q :=
  take w (drop (i - w) (deltas xs)).

Definition avg_gain (w : nat) (xs : list Q) (i : nat) : Q :=
  mean (gain <$> trailing_deltas w xs i).

Definition avg_loss (w : nat) (xs : list Q) (i : nat) : Q :=
  mean (loss <$> trailing_deltas w xs i).

(** Modelled from the spec: the oscillator that [RSIIndicator(...).rsi()]
    yields at index [i], from the rolling averages of the positive and
    negative parts of the trailing [w] deltas; absent while fewer than [w]
    deltas exist, that is while [i < w]. *)
Definition rsi_at (w : nat) (xs : list Q) (i : nat) : float :=
  if (i <? w)%nat then NaN
  else Some (oscillator (avg_gain w xs i) (avg_loss w xs i)).

Definition rsi_series (w : nat) (xs : list Q) : list float :=
  imap (fun i _ => rsi_at w xs i) xs.

(** Modelled from the spec: the indicator engine takes positive window
    sizes; a window that is not positive is rejected by the library call. *)
Definition window (z : Z) : result nat :=
  if z <=? 0 then Raise ValueError else Ok (Z.to_nat z).

(** [df] is the [Close] column of the downloaded bars, a price per bar. *)
Definition compute_indicators (cfg : config) (df : list Q) : result frame :=
  fast ← window (FAST_SMA cfg);
  slow ← window (SLOW_SMA cfg);
  period ← window (RSI_PERIOD cfg);
  mret (imap (fun i c => {| close := Some c;
                            sma_fast := sma_at fast df i;
                            sma_slow := sma_at slow df i;
                            rsi := rsi_at period df i |}) df).

(** ** The e-mail and the log *)

(** The contents of the subject and body built in [main_loop]; the
    rendering to text ([upper], [:.2f], [:.1f]) is not modelled. *)
Record message : Type := {
  msg_signal : signal;
  msg_symbol : string;
  msg_price : float;
  msg_time : string;
  msg_fast : float;
  msg_slow : float;
  msg_rsi : float
}.

(** The dict [row] of [log_signal]. *)
Record log_row : Type := {
  row_timestamp : string;
  row_symbol : string;
  row_signal : signal;
  row_price : float;
  row_extra : message
}.

Inductive csv_record : Type :=
| Header (columns : list string)
| Data (r : log_row).

Definition log_columns : list string :=
  ["timestamp"; "symbol"; "signal"; "price"; "extra"]%string.

(** [LOG_FILE] on disk: [None] when there is no such file
    ([os.path.isfile] is false), else the records of the file in order. *)
Definition log_store := option (list csv_record).

(** The two [to_csv] calls of [log_signal], when the write goes through. *)
Definition log_signal_write (store : log_store) (r : log_row) : log_store :=
  match store with
  | None => Some [Header log_columns; Data r]
  | Some records => Some (records ++ [Data r])
  end.

(** ** The environment *)

(** What the outside world answers while one symbol is processed. *)
Record response : Type := {
  download : result (list Q);  (* yf.download: the Close column, or an exception *)
  now : string;                (* datetime.now().isoformat() *)
  smtp_ok : bool;              (* does the SMTP exchange of send_email succeed *)
  disk_ok : bool               (* does the to_csv of log_signal succeed *)
}.

(** What the program does that is visible from outside: the call of
    [yf.download], the calls of [logging.info] and [logging.exception], and
    [time.sleep].  [InfoEmailSent] stands for the completed SMTP exchange
    together with its "Email sent" line. *)
Inductive event : Type :=
| Fetch (symbol : string)
| InfoChecked (symbol : string) (ts : string) (price : float)
| InfoEmailSent (m : message)
| ExceptionEmailFailed (m : message)
| ExceptionProcessing (symbol : string) (e : exn)
| Sleep.

Record state : Type := {
  last_signals : gmap string signal;
  log_file : log_store;
  console : list event
}.

Definition set_last_signals (f : gmap string signal -> gmap string signal) (st : state) : state :=
  {| last_signals := f (last_signals st); log_file := log_file st; console := console st |}.

Definition set_log_file (f : log_store -> log_store) (st : state) : state :=
  {| last_signals := last_signals st; log_file := f (log_file st); console := console st |}.

Definition say (e : event) (st : state) : state :=
  {| last_signals := last_signals st; log_file := log_file st; console := console st ++ [e] |}.

(** Computations that read and write the state and may raise. *)
Definition M (A : Type) : Type := state -> result A * state.

Global Instance M_ret : MRet M := fun A a st => (Ok a, st).

Global Instance M_bind : MBind M := fun A B k m st =>
  match m st with
  | (Ok a, st') => k a st'
  | (Raise e, st') => (Raise e, st')
  end.

Definition lift {A} (r : result A) : M A := fun st => (r, st).

Definition emit (e : event) : M unit := fun st => (Ok tt, say e st).

Definition try_except {A} (body : M A) (handler : exn -> M A) : M A := fun st =>
  match body st with
  | (Ok a, st') => (Ok a, st')
  | (Raise e, st') => handler e st'
  end.

(** ** De-duplication memory: the dict [last_signals] *)

(** [last_signals.get(symbol) != sig] *)
Definition shouldEmit (m : gmap string signal) (symbol : string) (sig : signal) : bool :=
  bool_decide (m !! symbol ≠ Some sig).

(** [last_signals[symbol] = sig] *)
Definition record (m : gmap string signal) (symbol : string) (sig : signal) : gmap string signal :=
  <[symbol := sig]> m.

Definition should_emit (symbol : string) (sig : signal) : M bool := fun st =>
  (Ok (shouldEmit (last_signals st) symbol sig), st).

Definition do_record (symbol : string) (sig : signal) : M unit := fun st =>
  (Ok tt, set_last_signals (fun m => record m symbol sig) st).

(** ** The loop *)

Definition fetch_ohlcv (w : response) (symbol : string) : M (list Q) := fun st =>
  (download w, say (Fetch symbol) st).

(** The exception of the SMTP exchange is caught inside [send_email]. *)
Definition send_email (w : response) (m : message) : M unit :=
  try_except
    (if smtp_ok w then emit (InfoEmailSent m) else lift (Raise ConnectionError))
    (fun _ => emit (ExceptionEmailFailed m)).

Definition log_signal (w : response) (r : log_row) : M unit := fun st =>
  if disk_ok w then (Ok tt, set_log_file (fun store => log_signal_write store r) st)
  else (Raise OSError, st).

Definition is_empty (df : list Q) : bool :=
  match df with [] => true | _ => false end.

(** The body of the [try] in [main_loop]. *)
Definition check_symbol (cfg : config) (w : response) (symbol : string) : M unit :=
  df ← fetch_ohlcv w symbol;
  if is_empty df then mret tt
  else
    df ← lift (compute_indicators cfg df);
    sig ← lift (detect_signals cfg df);
    last ← lift (iloc df (-1));
    let price := close last in
    let ts := now w in
    _ ← emit (InfoChecked symbol ts price);
    match sig with
    | None => mret tt
    | Some sig =>
        fresh ← should_emit symbol sig;
        if fresh : bool then
          let body := {| msg_signal := sig; msg_symbol := symbol; msg_price := price;
                         msg_time := ts; msg_fast := sma_fast last;
                         msg_slow := sma_slow last; msg_rsi := rsi last |} in
          _ ← send_email w body;
          _ ← log_signal w {| row_timestamp := ts; row_symbol := symbol; row_signal := sig;
                              row_price := price; row_extra := body |};
          do_record symbol sig
        else mret tt
    end.

(** One iteration of [for symbol in WATCHLIST], with its [try]/[except]. *)
Definition process_symbol (cfg : config) (w : response) (symbol : string) : M unit :=
  try_except (check_symbol cfg w symbol)
             (fun e => emit (ExceptionProcessing symbol e)).

(** [for symbol in WATCHLIST]: the [k]-th symbol meets the response [ws k]. *)
Fixpoint for_symbols (cfg : config) (ws : nat -> response) (k : nat)
    (symbols : list string) : M unit :=
  match symbols with
  | [] => mret tt
  | symbol :: rest =>
      _ ← process_symbol cfg (ws k) symbol;
      for_symbols cfg ws (S k) rest
  end.

Definition cycle (cfg : config) (ws : nat -> response) : M unit :=
  _ ← for_symbols cfg ws 0 (WATCHLIST cfg);
  emit Sleep.

(** [n] iterations of [while True], from cycle number [c] on. *)
Fixpoint cycles (cfg : config) (world : nat -> nat -> response) (c n : nat) : M unit :=
  match n with
  | O => mret tt
  | S n' =>
      _ ← cycle cfg (world c);
      cycles cfg world (S c) n'
  end.

Definition initial_state (store : log_store) : state :=
  {| last_signals := ∅; log_file := store; console := [] |}.

(** The first [n] cycles of [main_loop], which starts from an empty
    [last_signals]. *)
Definition main_loop (cfg : config) (world : nat -> nat -> response) (n : nat)
    (store : log_store) : result unit * state :=
  cycles cfg world 0 n (initial_state store).

(** ** Reading the console *)

(** The symbols whose download was started, in order. *)
Definition fetches (evs : list event) : list string :=
  omap (fun e => match e with Fetch s => Some s | _ => None end) evs.

(** The number of completed cycles. *)
Definition sleeps (evs : list event) : nat :=
  length (omap (fun e => match e with Sleep => Some tt | _ => None end) evs).

(** What [send_email] leaves on the console for the message [m]. *)
Definition notified (w : response) (m : message) : event :=
  if smtp_ok w then InfoEmailSent m else ExceptionEmailFailed m.

(** The message and the log row that [main_loop] builds for a signal. *)
Definition body_of (w : response) (symbol : string) (sig : signal) (last : row) : message :=
  {| msg_signal := sig; msg_symbol := symbol; msg_price := close last;
     msg_time := now w; msg_fast := sma_fast last;
     msg_slow := sma_slow last; msg_rsi := rsi last |}.

Definition row_of (w : response) (symbol : string) (sig : signal) (last : row) : log_row :=
  {| row_timestamp := now w; row_symbol := symbol; row_signal := sig;
     row_price := close last; row_extra := body_of w symbol sig last |}.

(** ** Example data *)

(** Windows 1 and 2 for the averages and 2 for the oscillator. *)
Definition cfg_1_2 : config := {|
  WATCHLIST := ["X"%string];
  FAST_SMA := 1; SLOW_SMA := 2; RSI_PERIOD := 2;
  RSI_OVERSOLD := 30; RSI_OVERBOUGHT := 70
|}.

(** Closes 10, 9, 12: the fast average crosses above the slow one on the
    last bar, with the oscillator at 75. *)
Definition bars_up : list Q := [10#1; 9#1; 12#1]%Q.

(** The rows that [compute_indicators cfg_1_2 bars_up] builds. *)
Definition row_0 : row :=
  {| close := Some 10%Q; sma_fast := Some 10%Q; sma_slow := NaN; rsi := NaN |}.
Definition row_1 : row :=
  {| close := Some 9%Q; sma_fast := Some 9%Q; sma_slow := Some (19 # 2)%Q; rsi := NaN |}.
Definition row_2 : row :=
  {| close := Some 12%Q; sma_fast := Some 12%Q; sma_slow := Some (21 # 2)%Q;
     rsi := Some (600 # 8)%Q |}.

(** Closes 1, 2, 3: no bar closes lower than the one before. *)
Definition bars_rising : list Q := [1#1; 2#1; 3#1]%Q.

(** The download delivers [bars_up]; the mail server is down. *)
Definition smtp_down : response :=
  {| download := Ok bars_up; now := "t0"; smtp_ok := false; disk_ok := true |}.

(** The download delivers [bars_up]; the log cannot be written. *)
Definition disk_down : response :=
  {| download := Ok bars_up; now := "t0"; smtp_ok := true; disk_ok := false |}.

(** The download delivers [bars_up]; mail and log both work. *)
Definition all_up : response :=
  {| download := Ok bars_up; now := "t1"; smtp_ok := true; disk_ok := true |}.

(** The download delivers no bars. *)
Definition no_bars : response :=
  {| download := Ok []; now := "t0"; smtp_ok := true; disk_ok := true |}.

(** The download fails. *)
Definition offline : response :=
  {| download := Raise ConnectionError; now := "t0"; smtp_ok := true; disk_ok := true |}.

(** A memory that already holds buy for X. *)
Definition st_bought : state :=
  {| last_signals := {["X"%string := buy]}; log_file := None; console := [] |}.

(** ** Reading the log *)

(** The e-mails that [send_email] was asked to send, delivered or not. *)
Definition emails (evs : list event) : list message :=
  omap (fun e => match e with
                 | InfoEmailSent m => Some m
                 | ExceptionEmailFailed m => Some m
                 | _ => None
                 end) evs.

(** What one record of the log says about the last signal of its symbol. *)
Definition replay_record (m : gmap string signal) (rec : csv_record) : gmap string signal :=
  match rec with
  | Header _ => m
  | Data r => record m (row_symbol r) (row_signal r)
  end.

(** The last logged signal of every symbol, read off the log from the top. *)
Definition logged (store : log_store) : gmap string signal :=
  foldl replay_record ∅ (default [] store).

(** No row repeats the signal of the row before it for the same symbol;
    [m] holds the last signal of each symbol seen so far. *)
Fixpoint alternates (m : gmap string signal) (records : list csv_record) : Prop :=
  match records with
  | [] => True
  | Header _ :: rest => alternates m rest
  | Data r :: rest =>
      m !! row_symbol r <> Some (row_signal r) /\
      alternates (record m (row_symbol r) (row_signal r)) rest
  end.

(** Both windows zero: the length guard asks for one row only. *)
Definition cfg_0_0 : config := {|
  WATCHLIST := ["X"%string];
  FAST_SMA := 0; SLOW_SMA := 0; RSI_PERIOD := 2;
  RSI_OVERSOLD := 30; RSI_OVERBOUGHT := 70
|}.

(** Looser thresholds than [cfg_1_2]. *)
Definition cfg_1_2_loose : config := {|
  WATCHLIST := ["X"%string];
  FAST_SMA := 1; SLOW_SMA := 2; RSI_PERIOD := 2;
  RSI_OVERSOLD := 20; RSI_OVERBOUGHT := 80
|}.

(** Closes 10, 11, 8: the fast average crosses below the slow one on the
    last bar, with the oscillator at 25. *)
Definition bars_down : list Q := [10#1; 11#1; 8#1]%Q.

(** The last row that [compute_indicators cfg_1_2 bars_down] builds. *)
Definition row_5 : row :=
  {| close := Some 8%Q; sma_fast := Some 8%Q; sma_slow := Some (19 # 2)%Q;
     rsi := Some (200 # 8)%Q |}.

(** The download delivers [bars_down]; mail and log both work. *)
Definition all_down : response :=
  {| download := Ok bars_down; now := "t1"; smtp_ok := true; disk_ok := true |}.

(** A crossing up in the first cycle, a crossing down from then on. *)
Definition up_then_down (c k : nat) : response :=
  match c with O => all_up | _ => all_down end.

(** ** The watchlist

    [WATCHLIST = [s.strip().upper() for s in
    os.getenv("WATCHLIST", "AAPL").split(",")]].  A Python string is taken
    as its sequence of characters, and the characters as ASCII: on them
    [strip] removes the white space of [str.isspace] from both ends and
    [upper] maps [a-z] to [A-Z]. *)

Definition is_ascii (c : ascii) : bool := (nat_of_ascii c <? 128)%nat.

(** [str.isspace] on ASCII: tab to carriage return, the four separators
    28 to 31, and the space. *)
Definition is_space (c : ascii) : bool :=
  let n := nat_of_ascii c in
  ((9 <=? n) && (n <=? 13) || (28 <=? n) && (n <=? 32))%nat.

Definition upper_char (c : ascii) : ascii :=
  let n := nat_of_ascii c in
  if ((97 <=? n) && (n <=? 122))%nat then ascii_of_nat (n - 32) else c.

Definition upper (s : list ascii) : list ascii := upper_char <$> s.

Fixpoint lstrip (s : list ascii) : list ascii :=
  match s with
  | [] => []
  | c :: rest => if is_space c then lstrip rest else s
  end.

Fixpoint rstrip (s : list ascii) : list ascii :=
  match s with
  | [] => []
  | c :: rest =>
      match rstrip rest with
      | [] => if is_space c then [] else [c]
      | kept => c :: kept
      end
  end.

Definition strip (s : list ascii) : list ascii := rstrip (lstrip s).

(** [s.split(sep)] for a one-character separator: the fields between the
    separators, empty fields included; an empty string has one empty field. *)
Fixpoint split (sep : ascii) (s : list ascii) : list (list ascii) :=
  match s with
  | [] => [[]]
  | c :: rest =>
      if Ascii.eqb c sep then [] :: split sep rest
      else
        match split sep rest with
        | field :: fields => (c :: field) :: fields
        | [] => [[c]]
        end
  end.

(** [sep.join(fields)] *)
Fixpoint join (sep : ascii) (fields : list (list ascii)) : list ascii :=
  match fields with
  | [] => []
  | [field] => field
  | field :: rest => field ++ sep :: join sep rest
  end.

(** [env] is the value of the environment variable, [None] when unset. *)
Definition parse_watchlist (env : option string) : list string :=
  (fun field => string_of_list_ascii (upper (strip field))) <$>
    split "," (list_ascii_of_string (default "AAPL"%string env)).

(** [",".join(symbols)] *)
Definition join_watchlist (symbols : list string) : string :=
  string_of_list_ascii (join "," (list_ascii_of_string <$> symbols)).

(** ** Proof steps *)

(** Unfold one pass over a symbol down to its case analysis. *)
Ltac step_M :=
  unfold process_symbol, check_symbol, try_except, send_email, log_signal,
    should_emit, do_record, fetch_ohlcv, emit, lift, mbind, M_bind, mret, M_ret;
  cbn beta iota.

(** Close a branch in which neither the memory nor the log changes. *)
Ltac quiet :=
  eexists; split; [reflexivity|]; cbn; rewrite <- ?app_assoc; auto 10.

(** * Properties *)

(** ** Float comparisons *)

Lemma float_le_spec (a b : float) :
  float_le a b = true <-> exists x y, a = Some x /\ b = Some y /\ (x <= y)%Q.
Proof.
  destruct a as [x|], b as [y|]; simpl; split;
    try (intros (? & ? & ? & ? & ?); discriminate); try discriminate.
  - intros H. exists x, y. repeat split. now apply Qle_bool_iff.
  - intros (x' & y' & [= <-] & [= <-] & H). now apply Qle_bool_iff.
Qed.

Lemma float_lt_spec (a b : float) :
  float_lt a b = true <-> exists x y, a = Some x /\ b = Some y /\ (x < y)%Q.
Proof.
  destruct a as [x|], b as [y|]; simpl; split;
    try (intros (? & ? & ? & ? & ?); discriminate); try discriminate.
  - intros H. exists x, y. repeat split.
    apply Qnot_le_lt. intros Hle. apply Qle_bool_iff in Hle.
    rewrite Hle in H. discriminate.
  - intros (x' & y' & [= <-] & [= <-] & H).
    destruct (Qle_bool y x) eqn:E; [|reflexivity].
    apply Qle_bool_iff in E. exfalso. exact (Qlt_not_le _ _ H E).
Qed.

Lemma float_le_NaN_l b : float_le NaN b = false.
Proof. reflexivity. Qed.

Lemma float_le_NaN_r a : float_le a NaN = false.
Proof. now destruct a. Qed.

Lemma float_lt_NaN_l b : float_lt NaN b = false.
Proof. reflexivity. Qed.

Lemma float_lt_NaN_r a : float_lt a NaN = false.
Proof. now destruct a. Qed.

Lemma float_lt_asym (a b : float) : float_lt a b && float_lt b a = false.
Proof.
  destruct (float_lt a b) eqn:E1, (float_lt b a) eqn:E2; try reflexivity.
  apply float_lt_spec in E1 as (x & y & -> & -> & H1).
  apply float_lt_spec in E2 as (y' & x' & [= <-] & [= <-] & H2).
  exfalso. exact (Qlt_irrefl x (Qlt_trans _ _ _ H1 H2)).
Qed.

(** ** Positional indexing from the end *)

Lemma iloc_last (pre : frame) (prev last : row) :
  iloc (pre ++ [prev; last]) (-1) = Ok last.
Proof.
  unfold iloc. rewrite length_app. simpl length.
  assert ((-1 <? - Z.of_nat (length pre + 2)) = false) as -> by (apply Z.ltb_ge; lia).
  assert ((Z.of_nat (length pre + 2) <=? -1) = false) as -> by (apply Z.leb_gt; lia).
  cbn [orb]. replace (-1 <? 0) with true by reflexivity.
  replace (Z.to_nat (Z.of_nat (length pre + 2) + -1)) with (length pre + 1)%nat by lia.
  rewrite lookup_app_r by lia.
  now replace (length pre + 1 - length pre)%nat with 1%nat by lia.
Qed.

Lemma iloc_prev (pre : frame) (prev last : row) :
  iloc (pre ++ [prev; last]) (-2) = Ok prev.
Proof.
  unfold iloc. rewrite length_app. simpl length.
  assert ((-2 <? - Z.of_nat (length pre + 2)) = false) as -> by (apply Z.ltb_ge; lia).
  assert ((Z.of_nat (length pre + 2) <=? -2) = false) as -> by (apply Z.leb_gt; lia).
  cbn [orb]. replace (-2 <? 0) with true by reflexivity.
  replace (Z.to_nat (Z.of_nat (length pre + 2) + -2)) with (length pre + 0)%nat by lia.
  rewrite lookup_app_r by lia.
  now replace (length pre + 0 - length pre)%nat with 0%nat by lia.
Qed.

(** Past the length guard, the detector looks at the last two rows only. *)
Lemma detect_signals_last_two cfg (pre : frame) (prev last : row) :
  Z.max (FAST_SMA cfg) (SLOW_SMA cfg) + 1 <= Z.of_nat (length (pre ++ [prev; last])) ->
  detect_signals cfg (pre ++ [prev; last]) =
    if buy_branch cfg prev last then Ok (Some buy)
    else if sell_branch cfg prev last then Ok (Some sell)
    else Ok None.
Proof.
  intros Hlen. unfold detect_signals.
  assert ((Z.of_nat (length (pre ++ [prev; last]))
             <? Z.max (FAST_SMA cfg) (SLOW_SMA cfg) + 1) = false) as ->
    by (apply Z.ltb_ge; lia).
  rewrite iloc_last. simpl. rewrite iloc_prev. reflexivity.
Qed.

Lemma cross_up_spec (prev last : row) pf ps lf ls :
  sma_fast prev = Some pf -> sma_slow prev = Some ps ->
  sma_fast last = Some lf -> sma_slow last = Some ls ->
  cross_up prev last = true <-> (pf <= ps)%Q /\ (ls < lf)%Q.
Proof.
  intros Hpf Hps Hlf Hls. unfold cross_up, float_gt.
  rewrite Hpf, Hps, Hlf, Hls, andb_true_iff, float_le_spec, float_lt_spec. split.
  - intros [(? & ? & [= <-] & [= <-] & ?) (? & ? & [= <-] & [= <-] & ?)]. now split.
  - intros [? ?]. split; eauto 6.
Qed.

Lemma cross_down_spec (prev last : row) pf ps lf ls :
  sma_fast prev = Some pf -> sma_slow prev = Some ps ->
  sma_fast last = Some lf -> sma_slow last = Some ls ->
  cross_down prev last = true <-> (ps <= pf)%Q /\ (lf < ls)%Q.
Proof.
  intros Hpf Hps Hlf Hls. unfold cross_down, float_ge.
  rewrite Hpf, Hps, Hlf, Hls, andb_true_iff, float_le_spec, float_lt_spec. split.
  - intros [(? & ? & [= <-] & [= <-] & ?) (? & ? & [= <-] & [= <-] & ?)]. now split.
  - intros [? ?]. split; eauto 6.
Qed.

Lemma rsi_above_spec (r : float) (z : Z) :
  float_gt r (of_int z) = true <-> exists q, r = Some q /\ (inject_Z z < q)%Q.
Proof.
  unfold float_gt, of_int. rewrite float_lt_spec. split.
  - intros (? & q & [= <-] & -> & ?). eauto.
  - intros (q & -> & ?). eauto 6.
Qed.

Lemma rsi_below_spec (r : float) (z : Z) :
  float_lt r (of_int z) = true <-> exists q, r = Some q /\ (q < inject_Z z)%Q.
Proof.
  unfold of_int. rewrite float_lt_spec. split.
  - intros (q & ? & -> & [= <-] & ?). eauto.
  - intros (q & -> & ?). eauto 6.
Qed.

(** C1: on a frame that passes the length guard and whose last two rows
    [prev], [last] have defined fast and slow averages, crossUp is
    [prevFast <= prevSlow] and [lastFast > lastSlow] (a tie on the previous
    bar counts), crossDown is [prevFast >= prevSlow] and
    [lastFast < lastSlow], and the detector returns buy iff crossUp and the
    last oscillator is above the oversold threshold, else sell iff crossDown
    and the last oscillator is below the overbought threshold, else no
    signal. *)
Theorem detect_signals_classifies cfg (pre : frame) (prev last : row) (pf ps lf ls : Q) :
  sma_fast prev = Some pf -> sma_slow prev = Some ps ->
  sma_fast last = Some lf -> sma_slow last = Some ls ->
  Z.max (FAST_SMA cfg) (SLOW_SMA cfg) + 1 <= Z.of_nat (length (pre ++ [prev; last])) ->
  let crossUp := (pf <= ps)%Q /\ (ls < lf)%Q in
  let crossDown := (ps <= pf)%Q /\ (lf < ls)%Q in
  let above := exists q, rsi last = Some q /\ (inject_Z (RSI_OVERSOLD cfg) < q)%Q in
  let below := exists q, rsi last = Some q /\ (q < inject_Z (RSI_OVERBOUGHT cfg))%Q in
  (cross_up prev last = true <-> crossUp) /\
  (cross_down prev last = true <-> crossDown) /\
  (pf == ps -> ls < lf -> cross_up prev last = true)%Q /\
  (detect_signals cfg (pre ++ [prev; last]) = Ok (Some buy) <-> crossUp /\ above) /\
  (detect_signals cfg (pre ++ [prev; last]) = Ok (Some sell) <->
     ~ (crossUp /\ above) /\ crossDown /\ below) /\
  (detect_signals cfg (pre ++ [prev; last]) = Ok None <->
     ~ (crossUp /\ above) /\ ~ (crossDown /\ below)).
Proof.
  intros Hpf Hps Hlf Hls Hlen crossUp crossDown above below.
  pose proof (cross_up_spec prev last pf ps lf ls Hpf Hps Hlf Hls) as Hup.
  pose proof (cross_down_spec prev last pf ps lf ls Hpf Hps Hlf Hls) as Hdown.
  assert (Hbuy : buy_branch cfg prev last = true <-> crossUp /\ above).
  { unfold buy_branch. now rewrite andb_true_iff, Hup, rsi_above_spec. }
  assert (Hsell : sell_branch cfg prev last = true <-> crossDown /\ below).
  { unfold sell_branch. now rewrite andb_true_iff, Hdown, rsi_below_spec. }
  rewrite (detect_signals_last_two cfg pre prev last Hlen).
  split; [exact Hup|]. split; [exact Hdown|].
  split. { intros Heq Hlt. apply Hup. split; [|exact Hlt]. rewrite Heq. apply Qle_refl. }
  clearbody crossUp crossDown above below.
  destruct (buy_branch cfg prev last), (sell_branch cfg prev last);
    intuition (discriminate || congruence).
Qed.

Lemma detect_signals_classifies_witness :
  detect_signals cfg_1_2 ([row_0] ++ [row_1; row_2]) = Ok (Some buy).
Proof.
  apply (detect_signals_classifies cfg_1_2 [row_0] row_1 row_2
           9%Q (19 # 2)%Q 12%Q (21 # 2)%Q); try reflexivity.
  split; [split|].
  - unfold Qle. simpl. lia.
  - unfold Qlt. simpl. lia.
  - exists (600 # 8)%Q. split; [reflexivity|]. unfold Qlt. simpl. lia.
Defined.

Lemma compute_indicators_bars_up :
  compute_indicators cfg_1_2 bars_up = Ok [row_0; row_1; row_2].
Proof. reflexivity. Qed.

(** On a frame built by [compute_indicators], defined averages on the
    previous row already imply the length guard. *)
Lemma compute_indicators_guard cfg (bars : list Q) (pre : frame) (prev last : row) pf ps :
  compute_indicators cfg bars = Ok (pre ++ [prev; last]) ->
  sma_fast prev = Some pf -> sma_slow prev = Some ps ->
  Z.max (FAST_SMA cfg) (SLOW_SMA cfg) + 1 <= Z.of_nat (length (pre ++ [prev; last])).
Proof.
  unfold compute_indicators, window, mbind, result_bind, mret, result_ret.
  destruct (Z.leb_spec (FAST_SMA cfg) 0); [discriminate|].
  destruct (Z.leb_spec (SLOW_SMA cfg) 0); [discriminate|].
  destruct (RSI_PERIOD cfg <=? 0); [discriminate|].
  intros [= Hrows] Hpf Hps.
  assert (Hprev : (pre ++ [prev; last]) !! length pre = Some prev).
  { rewrite lookup_app_r by lia. now rewrite Nat.sub_diag. }
  rewrite <- Hrows, list_lookup_imap in Hprev.
  destruct (bars !! length pre) as [c|]; [|discriminate].
  injection Hprev as <-. cbn in Hpf, Hps. unfold sma_at in Hpf, Hps.
  destruct (Nat.ltb_spec (S (length pre)) (Z.to_nat (FAST_SMA cfg))); [discriminate|].
  destruct (Nat.ltb_spec (S (length pre)) (Z.to_nat (SLOW_SMA cfg))); [discriminate|].
  rewrite length_app. cbn [length]. lia.
Qed.

Lemma cross_undefined (prev last : row) :
  sma_fast prev = NaN \/ sma_slow prev = NaN \/
  sma_fast last = NaN \/ sma_slow last = NaN ->
  cross_up prev last = false /\ cross_down prev last = false.
Proof.
  unfold cross_up, cross_down, float_ge, float_gt.
  intros [H | [H | [H | H]]]; rewrite H;
    rewrite ?float_le_NaN_l, ?float_le_NaN_r, ?float_lt_NaN_l, ?float_lt_NaN_r,
      ?andb_false_r; auto.
Qed.

(** C3: a frame with fewer than [max(FAST_SMA, SLOW_SMA) + 1] rows, and a
    frame one of whose last two rows has an undefined fast or slow average,
    make the detector return no signal; it does not raise. *)
Theorem detect_signals_insufficient_data cfg (df : frame) :
  (Z.of_nat (length df) < Z.max (FAST_SMA cfg) (SLOW_SMA cfg) + 1 \/
   exists pre prev last, df = pre ++ [prev; last] /\
     (sma_fast prev = NaN \/ sma_slow prev = NaN \/
      sma_fast last = NaN \/ sma_slow last = NaN)) ->
  detect_signals cfg df = Ok None.
Proof.
  intros [Hshort | (pre & prev & last & -> & Hundef)].
  - unfold detect_signals. now apply Z.ltb_lt in Hshort as ->.
  - destruct (Z.ltb_spec (Z.of_nat (length (pre ++ [prev; last])))
                (Z.max (FAST_SMA cfg) (SLOW_SMA cfg) + 1)) as [Hlt | Hge].
    + unfold detect_signals. now apply Z.ltb_lt in Hlt as ->.
    + rewrite detect_signals_last_two by exact Hge.
      destruct (cross_undefined prev last Hundef) as [Hup Hdown].
      unfold buy_branch, sell_branch. now rewrite Hup, Hdown.
Qed.

Lemma detect_signals_insufficient_data_witness :
  detect_signals default_config [row_0; row_1; row_2] = Ok None /\
  detect_signals cfg_1_2 ([] ++ [row_0; row_1]) = Ok None.
Proof.
  split.
  - apply detect_signals_insufficient_data. left. vm_compute. reflexivity.
  - apply detect_signals_insufficient_data. right.
    exists [], row_0, row_1. split; [reflexivity|]. right. left. reflexivity.
Defined.

(** C10: the buy condition and the sell condition exclude each other:
    [lastFast > lastSlow] and [lastFast < lastSlow] never hold together, so
    neither do crossUp and crossDown, nor the two branches of the detector. *)
Theorem buy_sell_exclusive cfg (prev last : row) :
  float_gt (sma_fast last) (sma_slow last) && float_lt (sma_fast last) (sma_slow last) = false /\
  cross_up prev last && cross_down prev last = false /\
  buy_branch cfg prev last && sell_branch cfg prev last = false.
Proof.
  assert (H : float_gt (sma_fast last) (sma_slow last)
              && float_lt (sma_fast last) (sma_slow last) = false).
  { unfold float_gt. apply float_lt_asym. }
  split; [exact H|].
  assert (H' : cross_up prev last && cross_down prev last = false).
  { unfold cross_up, cross_down.
    destruct (float_gt (sma_fast last) (sma_slow last)),
             (float_lt (sma_fast last) (sma_slow last));
      try discriminate; now rewrite ?andb_false_r. }
  split; [exact H'|].
  unfold buy_branch, sell_branch.
  destruct (cross_up prev last), (cross_down prev last); try discriminate;
    cbn [andb]; now rewrite ?andb_false_r.
Qed.

(** ** Moving averages *)

Lemma trailing_length (w : nat) (xs : list Q) (i : nat) :
  (i < length xs)%nat -> (w - 1 <= i)%nat -> length (trailing w xs i) = w.
Proof.
  intros Hi Hw. unfold trailing. rewrite length_take, length_drop. lia.
Qed.

Lemma trailing_lookup (w : nat) (xs : list Q) (i k : nat) :
  (k < w)%nat -> trailing w xs i !! k = xs !! (S i - w + k)%nat.
Proof.
  intros Hk. unfold trailing. now rewrite lookup_take_lt, lookup_drop.
Qed.

Lemma rolling_mean_lookup (w : nat) (xs : list Q) (i : nat) :
  (i < length xs)%nat -> rolling_mean w xs !! i = Some (sma_at w xs i).
Proof.
  intros Hi. unfold rolling_mean. rewrite list_lookup_imap.
  destruct (lookup_lt_is_Some_2 xs i Hi) as [x ->]. reflexivity.
Qed.

(** C4: for a positive window [w] and an index [i] of the series, the moving
    average is absent while [i < w - 1]; from [i = w - 1] on it is present
    and is the sum of exactly the [w] closes [xs[i-w+1] .. xs[i]] divided by
    [w]. *)
Theorem rolling_mean_spec (w : nat) (xs : list Q) (i : nat) :
  (0 < w)%nat -> (i < length xs)%nat ->
  ((i < w - 1)%nat -> rolling_mean w xs !! i = Some NaN) /\
  ((w - 1 <= i)%nat ->
     exists win : list Q,
       length win = w /\
       (forall k, (k < w)%nat -> win !! k = xs !! (i + 1 - w + k)%nat) /\
       rolling_mean w xs !! i = Some (Some (Qsum win / inject_Z (Z.of_nat w))%Q)).
Proof.
  intros Hw Hi. pose proof (rolling_mean_lookup w xs i Hi) as Hlk.
  unfold sma_at in Hlk. split.
  - intros Hlt. rewrite Hlk. destruct (Nat.ltb_spec (S i) w); [reflexivity | lia].
  - intros Hge. exists (trailing w xs i).
    pose proof (trailing_length w xs i Hi Hge) as Hlen.
    split; [exact Hlen|]. split.
    + intros k Hk. rewrite trailing_lookup by exact Hk.
      f_equal. lia.
    + rewrite Hlk. destruct (Nat.ltb_spec (S i) w); [lia|].
      unfold mean. now rewrite Hlen.
Qed.

Lemma rolling_mean_spec_witness :
  rolling_mean 2 bars_up !! 0%nat = Some NaN /\
  exists win : list Q,
    length win = 2%nat /\
    (forall k, (k < 2)%nat -> win !! k = bars_up !! (2 + 1 - 2 + k)%nat) /\
    rolling_mean 2 bars_up !! 2%nat = Some (Some (Qsum win / inject_Z (Z.of_nat 2))%Q).
Proof.
  split.
  - apply (rolling_mean_spec 2 bars_up 0); simpl; lia.
  - apply (rolling_mean_spec 2 bars_up 2); simpl; lia.
Defined.

(** ** Oscillator *)

Lemma gain_nonneg (d : Q) : (0 <= gain d)%Q.
Proof.
  unfold gain. destruct (Qle_bool 0 d) eqn:E.
  - now apply Qle_bool_iff.
  - apply Qle_refl.
Qed.

Lemma loss_nonneg (d : Q) : (0 <= loss d)%Q.
Proof.
  unfold loss. destruct (Qle_bool d 0) eqn:E.
  - apply Qle_bool_iff in E. lra.
  - apply Qle_refl.
Qed.

Lemma Qsum_nonneg (l : list Q) : Forall (fun q => (0 <= q)%Q) l -> (0 <= Qsum l)%Q.
Proof.
  induction 1 as [|q l Hq _ IH]; simpl.
  - apply Qle_refl.
  - lra.
Qed.

Lemma mean_nonneg (l : list Q) : Forall (fun q => (0 <= q)%Q) l -> (0 <= mean l)%Q.
Proof.
  intros H. unfold mean, Qdiv. apply Qmult_le_0_compat.
  - now apply Qsum_nonneg.
  - apply Qinv_le_0_compat. change 0%Q with (inject_Z 0).
    rewrite <- Zle_Qle. lia.
Qed.

Lemma avg_gain_nonneg w xs i : (0 <= avg_gain w xs i)%Q.
Proof.
  apply mean_nonneg, Forall_fmap, Forall_forall. intros d _. apply gain_nonneg.
Qed.

Lemma avg_loss_nonneg w xs i : (0 <= avg_loss w xs i)%Q.
Proof.
  apply mean_nonneg, Forall_fmap, Forall_forall. intros d _. apply loss_nonneg.
Qed.

Lemma oscillator_zero_loss (g l : Q) : (l == 0)%Q -> oscillator g l = 100%Q.
Proof.
  intros H. unfold oscillator. now apply Qeq_bool_iff in H as ->.
Qed.

(** The bounds hold for any non-negative averages, rolling or smoothed. *)
Lemma oscillator_bounds (g l : Q) :
  (0 <= g)%Q -> (0 <= l)%Q -> (0 <= oscillator g l)%Q /\ (oscillator g l <= 100)%Q.
Proof.
  intros Hg Hl. unfold oscillator.
  destruct (Qeq_bool l 0) eqn:E.
  - split; [discriminate | apply Qle_refl].
  - assert (Hl0 : ~ (l == 0)%Q).
    { intros H. apply Qeq_bool_iff in H. congruence. }
    assert (Hlpos : (0 < l)%Q) by (apply Qle_lteq in Hl as [?|Heq]; [easy | now symmetry in Heq]).
    assert (Hrs : (0 <= g / l)%Q).
    { apply Qle_shift_div_l; [exact Hlpos | lra]. }
    assert (Ht : (0 < 1 + g / l)%Q) by lra.
    assert (Hup : (100 / (1 + g / l) <= 100)%Q).
    { apply Qle_shift_div_r; [exact Ht | lra]. }
    assert (Hlow : (0 <= 100 / (1 + g / l))%Q).
    { apply Qle_shift_div_l; [exact Ht | lra]. }
    split; lra.
Qed.

Lemma rsi_series_lookup (w : nat) (xs : list Q) (i : nat) :
  (i < length xs)%nat -> rsi_series w xs !! i = Some (rsi_at w xs i).
Proof.
  intros Hi. unfold rsi_series. rewrite list_lookup_imap.
  destruct (lookup_lt_is_Some_2 xs i Hi) as [x ->]. reflexivity.
Qed.

Lemma rsi_series_lookup_inv (w : nat) (xs : list Q) (i : nat) (v : float) :
  rsi_series w xs !! i = Some v -> v = rsi_at w xs i.
Proof.
  unfold rsi_series. rewrite list_lookup_imap.
  destruct (xs !! i); simpl; congruence.
Qed.

Lemma deltas_length (xs : list Q) : length (deltas xs) = (length xs - 1)%nat.
Proof.
  unfold deltas. rewrite length_zip_with, length_drop. lia.
Qed.

(** C5: wherever the oscillator is defined it lies in [0, 100]; it is
    exactly 100 when the average loss over the window is zero; and it is
    undefined at a bar that fewer than [w] deltas lead up to. *)
Theorem rsi_series_spec (w : nat) (xs : list Q) (i : nat) :
  (forall v, rsi_series w xs !! i = Some (Some v) -> (0 <= v)%Q /\ (v <= 100)%Q) /\
  (forall v, rsi_series w xs !! i = Some (Some v) ->
     (avg_loss w xs i == 0)%Q -> v = 100%Q) /\
  ((i < length xs)%nat -> (length (take i (deltas xs)) < w)%nat ->
     rsi_series w xs !! i = Some NaN).
Proof.
  split; [|split].
  - intros v H. apply rsi_series_lookup_inv in H. unfold rsi_at in H.
    destruct (i <? w)%nat; [discriminate|]. injection H as ->.
    apply oscillator_bounds; [apply avg_gain_nonneg | apply avg_loss_nonneg].
  - intros v H Hzero. apply rsi_series_lookup_inv in H. unfold rsi_at in H.
    destruct (i <? w)%nat; [discriminate|]. injection H as ->.
    now apply oscillator_zero_loss.
  - intros Hi Hfew. rewrite rsi_series_lookup by exact Hi.
    rewrite length_take, deltas_length in Hfew.
    unfold rsi_at. destruct (Nat.ltb_spec i w); [reflexivity | lia].
Qed.

Lemma rsi_series_spec_witness :
  ((0 <= 600 # 8)%Q /\ (600 # 8 <= 100)%Q) /\
  oscillator (avg_gain 2 bars_rising 2) (avg_loss 2 bars_rising 2) = 100%Q /\
  rsi_series 2 bars_up !! 1%nat = Some NaN.
Proof.
  split; [|split].
  - apply (proj1 (rsi_series_spec 2 bars_up 2) (600 # 8)%Q). reflexivity.
  - apply (proj1 (proj2 (rsi_series_spec 2 bars_rising 2))).
    + reflexivity.
    + vm_compute. reflexivity.
  - apply (proj2 (proj2 (rsi_series_spec 2 bars_up 1))); simpl; lia.
Defined.

(** ** Running the loop *)

(** What one pass over a symbol can do to the state. *)
Lemma process_symbol_effect cfg w s st :
  exists evs st',
    process_symbol cfg w s st = (Ok tt, st') /\
    console st' = console st ++ Fetch s :: evs /\
    fetches evs = [] /\ sleeps evs = 0%nat /\
    ((last_signals st' = last_signals st /\ log_file st' = log_file st) \/
     (exists sig last,
        disk_ok w = true /\
        shouldEmit (last_signals st) s sig = true /\
        last_signals st' = record (last_signals st) s sig /\
        log_file st' = log_signal_write (log_file st) (row_of w s sig last) /\
        notified w (body_of w s sig last) ∈ evs)).
Proof.
  step_M.
  destruct (download w) as [bars|e]; cbn.
  2:{ exists [ExceptionProcessing s e]. quiet. }
  destruct (is_empty bars); cbn.
  { exists []. quiet. }
  destruct (compute_indicators cfg bars) as [df|e]; cbn.
  2:{ exists [ExceptionProcessing s e]. quiet. }
  destruct (detect_signals cfg df) as [sig|e]; cbn.
  2:{ exists [ExceptionProcessing s e]. quiet. }
  destruct (iloc df (-1)) as [last|e]; cbn.
  2:{ exists [ExceptionProcessing s e]. quiet. }
  destruct sig as [sig|]; cbn.
  2:{ exists [InfoChecked s (now w) (close last)]. quiet. }
  destruct (shouldEmit (last_signals st) s sig) eqn:Hfresh; cbn.
  2:{ exists [InfoChecked s (now w) (close last)]. quiet. }
  destruct (disk_ok w) eqn:Hdisk; cbn.
  - exists [InfoChecked s (now w) (close last); notified w (body_of w s sig last)].
    unfold notified, body_of, row_of.
    destruct (smtp_ok w); cbn; eexists; (split; [reflexivity|]); cbn;
      rewrite <- !app_assoc; (split; [reflexivity|]); (split; [reflexivity|]);
      (split; [reflexivity|]); right; exists sig, last;
      repeat split; auto; set_solver.
  - exists [InfoChecked s (now w) (close last); notified w (body_of w s sig last);
            ExceptionProcessing s OSError].
    unfold notified, body_of. destruct (smtp_ok w); cbn; quiet.
Qed.

Lemma process_symbol_caught cfg w s st e st1 :
  check_symbol cfg w s st = (Raise e, st1) ->
  process_symbol cfg w s st = (Ok tt, say (ExceptionProcessing s e) st1).
Proof. intros H. unfold process_symbol, try_except. now rewrite H. Qed.

Lemma process_symbol_empty cfg w s st :
  download w = Ok [] -> process_symbol cfg w s st = (Ok tt, say (Fetch s) st).
Proof. intros H. step_M. now rewrite H. Qed.

Lemma process_symbol_emits cfg w s st bars df sig last :
  download w = Ok bars -> bars <> [] ->
  compute_indicators cfg bars = Ok df ->
  detect_signals cfg df = Ok (Some sig) ->
  iloc df (-1) = Ok last ->
  shouldEmit (last_signals st) s sig = true ->
  process_symbol cfg w s st =
    (Ok tt,
     if disk_ok w
     then {| last_signals := record (last_signals st) s sig;
             log_file := log_signal_write (log_file st) (row_of w s sig last);
             console := console st ++ [Fetch s; InfoChecked s (now w) (close last);
                                       notified w (body_of w s sig last)] |}
     else {| last_signals := last_signals st;
             log_file := log_file st;
             console := console st ++ [Fetch s; InfoChecked s (now w) (close last);
                                       notified w (body_of w s sig last);
                                       ExceptionProcessing s OSError] |}).
Proof.
  intros Hdl Hne Hci Hds Hil Hfresh. step_M. rewrite Hdl. cbn.
  destruct bars as [|b bars]; [congruence|]. cbn.
  rewrite Hci. cbn. rewrite Hds. cbn. rewrite Hil. cbn. rewrite Hfresh. cbn.
  unfold notified, body_of, row_of, say, set_log_file, set_last_signals.
  destruct (smtp_ok w), (disk_ok w); cbn; rewrite <- !app_assoc; reflexivity.
Qed.

Lemma process_symbol_keeps cfg w s st (S : string) (v : signal) :
  last_signals st !! S = Some v ->
  last_signals (process_symbol cfg w s st).2 !! S = Some v \/
  (s = S /\ exists sig, sig <> v /\
     last_signals (process_symbol cfg w s st).2 !! S = Some sig).
Proof.
  intros Hv.
  destruct (process_symbol_effect cfg w s st)
    as (evs & st' & Hrun & _ & _ & _ & [[Hm _] | (sig & last & _ & Hfresh & Hm & _)]);
    rewrite Hrun; cbn; rewrite Hm.
  - now left.
  - destruct (decide (s = S)) as [->|Hne].
    + right. split; [reflexivity|]. exists sig. unfold record. rewrite lookup_insert_eq.
      split; [|reflexivity]. intros ->. unfold shouldEmit in Hfresh.
      apply bool_decide_eq_true in Hfresh. contradiction.
    + left. unfold record. now rewrite lookup_insert_ne.
Qed.

Lemma for_symbols_effect cfg ws symbols : forall k st,
  exists evs st',
    for_symbols cfg ws k symbols st = (Ok tt, st') /\
    console st' = console st ++ evs /\
    fetches evs = symbols /\ sleeps evs = 0%nat /\
    (forall (S : string), is_Some (last_signals st !! S) -> is_Some (last_signals st' !! S)).
Proof.
  induction symbols as [|s rest IH]; intros k st.
  - exists [], st. cbn. rewrite app_nil_r. auto.
  - cbn [for_symbols]. unfold mbind, M_bind.
    destruct (process_symbol_effect cfg (ws k) s st)
      as (evs1 & st1 & Hrun & Hcon & Hf & Hs & Hmem).
    rewrite Hrun.
    destruct (IH (S k) st1) as (evs2 & st2 & Hrun2 & Hcon2 & Hf2 & Hs2 & Hmem2).
    exists (Fetch s :: evs1 ++ evs2), st2. split; [exact Hrun2|].
    split. { rewrite Hcon2, Hcon, <- app_assoc. reflexivity. }
    split. { unfold fetches in *. cbn. rewrite omap_app, Hf, Hf2. reflexivity. }
    split. { unfold sleeps in *. cbn. rewrite omap_app, length_app. lia. }
    intros S HS. apply Hmem2.
    destruct Hmem as [[-> _] | (sig & last & _ & _ & -> & _)]; [exact HS|].
    unfold record. destruct (decide (s = S)) as [->|Hne].
    + rewrite lookup_insert_eq. eauto.
    + now rewrite lookup_insert_ne.
Qed.

Lemma cycle_effect cfg ws st :
  exists evs st',
    cycle cfg ws st = (Ok tt, st') /\
    console st' = console st ++ evs /\
    fetches evs = WATCHLIST cfg /\ sleeps evs = 1%nat /\
    (forall (S : string), is_Some (last_signals st !! S) -> is_Some (last_signals st' !! S)).
Proof.
  unfold cycle, mbind, M_bind.
  destruct (for_symbols_effect cfg ws (WATCHLIST cfg) 0%nat st)
    as (evs & st1 & -> & Hcon & Hf & Hs & Hmem).
  exists (evs ++ [Sleep]), (say Sleep st1). split; [reflexivity|].
  split. { cbn. rewrite Hcon, <- app_assoc. reflexivity. }
  split. { unfold fetches in *. rewrite omap_app, Hf. cbn. apply app_nil_r. }
  split. { unfold sleeps in *. rewrite omap_app, length_app. cbn. lia. }
  exact Hmem.
Qed.

Lemma cycles_effect cfg world n : forall c st,
  exists evs st',
    cycles cfg world c n st = (Ok tt, st') /\
    console st' = console st ++ evs /\
    fetches evs = concat (replicate n (WATCHLIST cfg)) /\ sleeps evs = n /\
    (forall (S : string), is_Some (last_signals st !! S) -> is_Some (last_signals st' !! S)).
Proof.
  induction n as [|n IH]; intros c st.
  - exists [], st. cbn. rewrite app_nil_r. auto.
  - cbn [cycles]. unfold mbind, M_bind.
    destruct (cycle_effect cfg (world c) st) as (evs1 & st1 & -> & Hcon & Hf & Hs & Hmem).
    destruct (IH (S c) st1) as (evs2 & st2 & Hrun2 & Hcon2 & Hf2 & Hs2 & Hmem2).
    exists (evs1 ++ evs2), st2. split; [exact Hrun2|].
    split. { rewrite Hcon2, Hcon, <- app_assoc. reflexivity. }
    split. { unfold fetches in *. rewrite omap_app, Hf, Hf2. reflexivity. }
    split. { unfold sleeps in *. rewrite omap_app, length_app. lia. }
    auto.
Qed.

(** ** De-duplication *)

Lemma shouldEmit_true (m : gmap string signal) (S : string) (sig : signal) :
  shouldEmit m S sig = true <-> m !! S <> Some sig.
Proof. unfold shouldEmit. apply bool_decide_eq_true. Qed.

(** C6: [shouldEmit] answers true iff the signal differs from the one stored
    for the symbol or none is stored; it leaves the memory as it is, so asking
    twice gives the same answer; after [record S buy] it answers false for buy
    and true for sell; and nothing but [record] touches a stored signal: over
    any number of cycles a symbol that has a stored signal keeps one, and one
    pass over a symbol leaves it unchanged or replaces it by a different
    signal of that same symbol. *)
Theorem dedup_memory_spec (m : gmap string signal) (S : string) (sig : signal) :
  (shouldEmit m S sig = true <->
     m !! S = None \/ exists old, m !! S = Some old /\ old <> sig) /\
  (forall st, exists b,
     should_emit S sig st = (Ok b, st) /\ should_emit S sig (should_emit S sig st).2 = (Ok b, st)) /\
  shouldEmit (record m S buy) S buy = false /\
  shouldEmit (record m S buy) S sell = true /\
  (forall cfg world c n st,
     is_Some (last_signals st !! S) ->
     is_Some (last_signals (cycles cfg world c n st).2 !! S)) /\
  (forall cfg w s st v,
     last_signals st !! S = Some v ->
     last_signals (process_symbol cfg w s st).2 !! S = Some v \/
     (s = S /\ exists sig', sig' <> v /\
        last_signals (process_symbol cfg w s st).2 !! S = Some sig')).
Proof.
  split.
  { rewrite shouldEmit_true. destruct (m !! S) as [old|]; split.
    - intros H. right. exists old. split; [reflexivity | congruence].
    - intros [? | (old' & [= <-] & Hne)]; congruence.
    - auto.
    - discriminate. }
  split. { intros st. exists (shouldEmit (last_signals st) S sig). split; reflexivity. }
  split. { apply bool_decide_eq_false. unfold record. rewrite lookup_insert_eq. auto. }
  split. { apply bool_decide_eq_true. unfold record. rewrite lookup_insert_eq. discriminate. }
  split.
  { intros cfg world c n st HS.
    destruct (cycles_effect cfg world n c st) as (evs & st' & -> & _ & _ & _ & Hmem).
    now apply Hmem. }
  intros cfg w s st v. apply process_symbol_keeps.
Qed.

Lemma dedup_memory_spec_witness :
  is_Some (last_signals (cycles cfg_1_2 (fun _ _ => all_up) 0 2 st_bought).2 !! "X"%string) /\
  (last_signals (process_symbol cfg_1_2 all_up "X" st_bought).2 !! "X"%string = Some buy \/
   ("X"%string = "X"%string /\ exists sig', sig' <> buy /\
      last_signals (process_symbol cfg_1_2 all_up "X" st_bought).2 !! "X"%string = Some sig')).
Proof.
  destruct (dedup_memory_spec ∅ "X" buy) as (_ & _ & _ & _ & Hcycles & Hstep).
  split.
  - apply Hcycles. exists buy. reflexivity.
  - apply Hstep. reflexivity.
Defined.

(** ** The loop and its failures *)

(** C7: when the download yields no bars the symbol is skipped: the pass ends
    normally having done nothing but the download, whatever the windows are
    (no indicator is computed, nothing is reported, mailed, logged or
    recorded), and the loop goes on with the next symbol. *)
Theorem empty_download_skipped cfg (ws : nat -> response) (k : nat)
    (s : string) (rest : list string) (st : state) :
  download (ws k) = Ok [] ->
  process_symbol cfg (ws k) s st = (Ok tt, say (Fetch s) st) /\
  console (say (Fetch s) st) = console st ++ [Fetch s] /\
  last_signals (say (Fetch s) st) = last_signals st /\
  log_file (say (Fetch s) st) = log_file st /\
  (forall cfg', process_symbol cfg' (ws k) s st = process_symbol cfg (ws k) s st) /\
  for_symbols cfg ws k (s :: rest) st = for_symbols cfg ws (S k) rest (say (Fetch s) st).
Proof.
  intros Hempty. repeat split.
  - now apply process_symbol_empty.
  - intros cfg'. now rewrite !process_symbol_empty.
  - cbn [for_symbols]. unfold mbind, M_bind. now rewrite process_symbol_empty.
Qed.

Lemma empty_download_skipped_witness :
  for_symbols cfg_1_2 (fun _ => no_bars) 0 ["Y"; "X"]%string (initial_state None) =
  for_symbols cfg_1_2 (fun _ => no_bars) 1 ["X"%string] (say (Fetch "Y") (initial_state None)).
Proof.
  apply (empty_download_skipped cfg_1_2 (fun _ => no_bars) 0 "Y" ["X"%string]).
  reflexivity.
Defined.

(** C8: an exception raised while a symbol is processed is caught at that
    symbol and reported, and the pass ends normally; so whatever the world
    answers, [n] iterations of the loop end normally, each one having started
    the download of every symbol of the watchlist in order and slept once. *)
Theorem main_loop_survives cfg (world : nat -> nat -> response) (n : nat)
    (store : log_store) (w : response) (s : string) (st : state) :
  (forall e st1, check_symbol cfg w s st = (Raise e, st1) ->
     process_symbol cfg w s st = (Ok tt, say (ExceptionProcessing s e) st1)) /\
  (exists st', process_symbol cfg w s st = (Ok tt, st')) /\
  (exists st', main_loop cfg world n store = (Ok tt, st') /\
     fetches (console st') = concat (replicate n (WATCHLIST cfg)) /\
     sleeps (console st') = n).
Proof.
  split. { intros e st1. apply process_symbol_caught. }
  split. { destruct (process_symbol_effect cfg w s st) as (_ & st' & H & _). eauto. }
  unfold main_loop.
  destruct (cycles_effect cfg world n 0%nat (initial_state store))
    as (evs & st' & Hrun & Hcon & Hf & Hs & _).
  exists st'. cbn in Hcon. rewrite Hcon. auto.
Qed.

Lemma main_loop_survives_witness :
  process_symbol cfg_1_2 offline "X" (initial_state None) =
    (Ok tt, say (ExceptionProcessing "X" ConnectionError)
              (say (Fetch "X") (initial_state None))).
Proof.
  apply (main_loop_survives cfg_1_2 (fun _ _ => offline) 0 None offline "X"
           (initial_state None)).
  reflexivity.
Defined.

(** ** The log *)

(** C9: the first write, on an absent store, creates it with the header row
    followed by the record; a write on an existing store appends exactly one
    record after the records already there, which stay as they were, and
    writes no header; so after any run of writes the header is there once. *)
Theorem log_signal_write_spec (r : log_row) (rs : list log_row) (records : list csv_record) :
  log_signal_write None r = Some [Header log_columns; Data r] /\
  log_signal_write (Some records) r = Some (records ++ [Data r]) /\
  foldl log_signal_write None (r :: rs) = Some (Header log_columns :: (Data <$> (r :: rs))) /\
  (forall w st, disk_ok w = true ->
     log_signal w r st = (Ok tt, set_log_file (fun store => log_signal_write store r) st) /\
     last_signals (log_signal w r st).2 = last_signals st).
Proof.
  split; [reflexivity|]. split; [reflexivity|]. split.
  - cbn [foldl]. change (log_signal_write None r) with (Some ([Header log_columns] ++ [Data r])).
    change (Header log_columns :: (Data <$> r :: rs))
      with ([Header log_columns] ++ [Data r] ++ (Data <$> rs)).
    rewrite app_assoc. generalize ([Header log_columns] ++ [Data r]).
    induction rs as [|r' rs IH]; intros acc; cbn.
    + now rewrite app_nil_r.
    + rewrite IH, <- app_assoc. reflexivity.
  - intros w st Hdisk. unfold log_signal. rewrite Hdisk. split; reflexivity.
Qed.

Lemma log_signal_write_spec_witness :
  log_signal all_up (row_of all_up "X" buy row_2) (initial_state None) =
    (Ok tt, set_log_file (fun store => log_signal_write store (row_of all_up "X" buy row_2))
              (initial_state None)).
Proof.
  apply (log_signal_write_spec (row_of all_up "X" buy row_2) [] []). reflexivity.
Defined.

(** ** Failures of the mail and of the log *)

(** C2, as stated, fails: with the mail server down [send_email] reports the
    failure and returns, the row is logged and buy is recorded for X; on the
    next cycle the same buy is suppressed, not retried. *)
Lemma failed_email_is_recorded :
  let st0 := initial_state None in
  let st1 := (process_symbol cfg_1_2 smtp_down "X" st0).2 in
  let st2 := (process_symbol cfg_1_2 all_up "X" st1).2 in
  smtp_ok smtp_down = false /\
  console st1 = [Fetch "X"; InfoChecked "X" "t0" (Some 12%Q);
                 ExceptionEmailFailed (body_of smtp_down "X" buy row_2)] /\
  last_signals st0 !! "X"%string = None /\
  last_signals st1 !! "X"%string = Some buy /\
  last_signals st1 <> last_signals st0 /\
  console st2 = console st1 ++ [Fetch "X"; InfoChecked "X" "t1" (Some 12%Q)].
Proof.
  cbv zeta. split; [reflexivity|]. split; [reflexivity|].
  split; [reflexivity|]. split; [reflexivity|]. split; [|reflexivity].
  intros H. apply (f_equal (fun m => m !! "X"%string)) in H. discriminate H.
Qed.

(** C2, amended: when the log append fails the memory is left as it was, the
    failure is reported, and the same signal is mailed again on the next cycle;
    a failure of the mail is caught and reported inside [send_email] and stops
    neither the log append nor the update; the stored signal changes only
    after [send_email] has returned and the log append has succeeded. *)
Theorem record_follows_log cfg (w : response) (s : string) (st : state) :
  (disk_ok w = false -> last_signals (process_symbol cfg w s st).2 = last_signals st) /\
  (last_signals (process_symbol cfg w s st).2 <> last_signals st ->
     disk_ok w = true /\
     exists sig last,
       shouldEmit (last_signals st) s sig = true /\
       last_signals (process_symbol cfg w s st).2 = record (last_signals st) s sig /\
       log_file (process_symbol cfg w s st).2 =
         log_signal_write (log_file st) (row_of w s sig last) /\
       notified w (body_of w s sig last) ∈ console (process_symbol cfg w s st).2) /\
  (forall bars df sig last,
     download w = Ok bars -> bars <> [] ->
     compute_indicators cfg bars = Ok df ->
     detect_signals cfg df = Ok (Some sig) ->
     iloc df (-1) = Ok last ->
     shouldEmit (last_signals st) s sig = true ->
     process_symbol cfg w s st =
       (Ok tt,
        if disk_ok w
        then {| last_signals := record (last_signals st) s sig;
                log_file := log_signal_write (log_file st) (row_of w s sig last);
                console := console st ++ [Fetch s; InfoChecked s (now w) (close last);
                                          notified w (body_of w s sig last)] |}
        else {| last_signals := last_signals st;
                log_file := log_file st;
                console := console st ++ [Fetch s; InfoChecked s (now w) (close last);
                                          notified w (body_of w s sig last);
                                          ExceptionProcessing s OSError] |}) /\
     (disk_ok w = false -> forall w2, download w2 = Ok bars ->
        let st1 := (process_symbol cfg w s st).2 in
        let st2 := (process_symbol cfg w2 s st1).2 in
        console st2 = console st1 ++ [Fetch s; InfoChecked s (now w2) (close last);
                                      notified w2 (body_of w2 s sig last)]
                                  ++ (if disk_ok w2 then []
                                      else [ExceptionProcessing s OSError]) /\
        last_signals st2 = if disk_ok w2 then record (last_signals st) s sig
                           else last_signals st)).
Proof.
  destruct (process_symbol_effect cfg w s st)
    as (evs & st' & Hrun & Hcon & _ & _ & Heff).
  split; [|split].
  - intros Hdisk. rewrite Hrun. cbn.
    destruct Heff as [[Hm _] | (sig & last & Hok & _)]; [exact Hm | congruence].
  - rewrite Hrun. cbn. intros Hchanged.
    destruct Heff as [[Hm _] | (sig & last & Hok & Hfresh & Hm & Hlog & Hmail)];
      [contradiction|].
    split; [exact Hok|]. exists sig, last. repeat split; try assumption.
    rewrite Hcon. set_solver.
  - intros bars df sig last Hdl Hne Hci Hds Hil Hfresh.
    pose proof (process_symbol_emits cfg w s st bars df sig last
                  Hdl Hne Hci Hds Hil Hfresh) as Hemit.
    split; [exact Hemit|].
    intros Hdisk w2 Hdl2. cbv zeta.
    rewrite Hemit, Hdisk. cbn [snd].
    match goal with
    | |- context [process_symbol cfg w2 s ?st1] =>
        rewrite (process_symbol_emits cfg w2 s st1 bars df sig last
                   Hdl2 Hne Hci Hds Hil Hfresh)
    end.
    destruct (disk_ok w2); cbn; rewrite <- app_assoc; split; reflexivity.
Qed.

Lemma record_follows_log_witness :
  let st1 := (process_symbol cfg_1_2 disk_down "X" (initial_state None)).2 in
  last_signals st1 = last_signals (initial_state None) /\
  last_signals (process_symbol cfg_1_2 all_up "X" st1).2
    = record (last_signals (initial_state None)) "X" buy.
Proof.
  cbv zeta.
  destruct (record_follows_log cfg_1_2 disk_down "X" (initial_state None))
    as (Hkept & _ & Hemit).
  split.
  - apply Hkept. reflexivity.
  - assert (Hne : bars_up <> []) by discriminate.
    destruct (Hemit bars_up [row_0; row_1; row_2] buy row_2
                eq_refl Hne eq_refl eq_refl eq_refl eq_refl) as [_ Hretry].
    apply (Hretry eq_refl all_up eq_refl).
Defined.

(** * Further properties *)

(** ** The detector on arbitrary frames *)

Lemma iloc_in_range (df : frame) (i : Z) :
  - Z.of_nat (length df) <= i < Z.of_nat (length df) -> exists r, iloc df i = Ok r.
Proof.
  intros Hi. unfold iloc.
  assert ((i <? - Z.of_nat (length df)) = false) as -> by (apply Z.ltb_ge; lia).
  assert ((Z.of_nat (length df) <=? i) = false) as -> by (apply Z.leb_gt; lia).
  cbn [orb].
  destruct (lookup_lt_is_Some_2 df
              (Z.to_nat (if i <? 0 then Z.of_nat (length df) + i else i))) as [r ->].
  - destruct (Z.ltb_spec i 0); lia.
  - eauto.
Qed.

Lemma last_two_rows (df : frame) :
  (2 <= length df)%nat -> exists pre prev last, df = pre ++ [prev; last].
Proof.
  intros Hlen. destruct df as [|last df _] using rev_ind; [cbn in Hlen; lia|].
  destruct df as [|prev pre _] using rev_ind.
  - cbn in Hlen. lia.
  - exists pre, prev, last. now rewrite <- app_assoc.
Qed.

Lemma cross_exclusive (prev last : row) :
  cross_up prev last = true -> cross_down prev last = false.
Proof.
  unfold cross_up, cross_down, float_gt. intros [_ H]%andb_true_iff.
  destruct (float_lt (sma_fast last) (sma_slow last)) eqn:E; [|apply andb_false_r].
  pose proof (float_lt_asym (sma_fast last) (sma_slow last)) as Hasym.
  rewrite E, H in Hasym. discriminate.
Qed.

Lemma detect_signals_few_rows cfg (df : frame) :
  Z.max (FAST_SMA cfg) (SLOW_SMA cfg) + 1 <= Z.of_nat (length df) ->
  (length df < 2)%nat ->
  detect_signals cfg df = Raise IndexError.
Proof.
  intros Hpass Hfew. unfold detect_signals.
  assert ((Z.of_nat (length df) <? Z.max (FAST_SMA cfg) (SLOW_SMA cfg) + 1) = false) as ->
    by (apply Z.ltb_ge; lia).
  destruct df as [|r [|r' df]]; [reflexivity | reflexivity | cbn in Hfew; lia].
Qed.

(** X1: [detect_signals] raises only IndexError, and exactly when the frame
    passes the length guard with fewer than two rows, which needs both windows
    to be zero or negative; with a window of at least one it always returns. *)
Theorem detect_signals_raises_iff cfg (df : frame) :
  (forall e, detect_signals cfg df = Raise e <->
     e = IndexError /\
     Z.max (FAST_SMA cfg) (SLOW_SMA cfg) + 1 <= Z.of_nat (length df) /\
     (length df < 2)%nat) /\
  (1 <= FAST_SMA cfg \/ 1 <= SLOW_SMA cfg -> exists r, detect_signals cfg df = Ok r).
Proof.
  assert (Hiff : forall e, detect_signals cfg df = Raise e <->
     e = IndexError /\
     Z.max (FAST_SMA cfg) (SLOW_SMA cfg) + 1 <= Z.of_nat (length df) /\
     (length df < 2)%nat).
  { intros e.
    destruct (Z.ltb_spec (Z.of_nat (length df))
                (Z.max (FAST_SMA cfg) (SLOW_SMA cfg) + 1)) as [Hshort | Hpass].
    { unfold detect_signals. apply Z.ltb_lt in Hshort as Hb. rewrite Hb.
      split; [discriminate | lia]. }
    destruct (le_lt_dec 2 (length df)) as [Htwo | Hfew].
    - destruct (last_two_rows df Htwo) as (pre & prev & last & ->).
      rewrite detect_signals_last_two by exact Hpass.
      split; [|rewrite length_app; cbn; lia].
      destruct (buy_branch cfg prev last), (sell_branch cfg prev last); discriminate.
    - rewrite (detect_signals_few_rows cfg df Hpass Hfew).
      split; [intros [= <-]; auto | now intros [-> _]]. }
  split; [exact Hiff|].
  intros Hwin.
  assert (Hno : forall e, detect_signals cfg df <> Raise e).
  { intros e He. apply Hiff in He as (_ & Hpass & Hfew). lia. }
  destruct (detect_signals cfg df) as [r|e]; [eauto | now destruct (Hno e)].
Qed.

Lemma detect_signals_raises_iff_witness :
  detect_signals cfg_0_0 [row_0] = Raise IndexError /\
  exists r, detect_signals default_config [row_0] = Ok r.
Proof.
  split.
  - apply (proj1 (detect_signals_raises_iff cfg_0_0 [row_0])).
    split; [reflexivity|]. split; [vm_compute; discriminate | cbn; lia].
  - apply (proj2 (detect_signals_raises_iff default_config [row_0])).
    left. vm_compute. discriminate.
Defined.

(** X2: a signal comes only from fully defined numbers: when the detector
    returns buy or sell, the frame has a previous and a last row, all four
    averages and the last oscillator are numbers, and they satisfy the
    inequalities of the branch taken. *)
Theorem detect_signals_signal_inv cfg (df : frame) (sig : signal) :
  detect_signals cfg df = Ok (Some sig) ->
  exists pre prev last pf ps lf ls r,
    df = pre ++ [prev; last] /\
    Z.max (FAST_SMA cfg) (SLOW_SMA cfg) + 1 <= Z.of_nat (length df) /\
    sma_fast prev = Some pf /\ sma_slow prev = Some ps /\
    sma_fast last = Some lf /\ sma_slow last = Some ls /\
    rsi last = Some r /\
    match sig with
    | buy => (pf <= ps)%Q /\ (ls < lf)%Q /\ (inject_Z (RSI_OVERSOLD cfg) < r)%Q
    | sell => (ps <= pf)%Q /\ (lf < ls)%Q /\ (r < inject_Z (RSI_OVERBOUGHT cfg))%Q
    end.
Proof.
  intros Hsig.
  destruct (Z.ltb_spec (Z.of_nat (length df))
              (Z.max (FAST_SMA cfg) (SLOW_SMA cfg) + 1)) as [Hshort | Hpass].
  { unfold detect_signals in Hsig. apply Z.ltb_lt in Hshort. rewrite Hshort in Hsig.
    discriminate. }
  destruct (le_lt_dec 2 (length df)) as [Htwo | Hfew].
  2:{ rewrite (detect_signals_few_rows cfg df Hpass Hfew) in Hsig. discriminate. }
  destruct (last_two_rows df Htwo) as (pre & prev & last & ->).
  rewrite detect_signals_last_two in Hsig by exact Hpass.
  destruct (buy_branch cfg prev last) eqn:Hbuy.
  - injection Hsig as <-. unfold buy_branch in Hbuy.
    apply andb_true_iff in Hbuy as [Hup Hosc].
    unfold cross_up, float_gt in Hup. apply andb_true_iff in Hup as [Hp Hl].
    apply float_le_spec in Hp as (pf & ps & Hpf & Hps & Hple).
    apply float_lt_spec in Hl as (ls & lf & Hls & Hlf & Hllt).
    apply rsi_above_spec in Hosc as (r & Hr & Hrlt).
    exists pre, prev, last, pf, ps, lf, ls, r. auto 12.
  - destruct (sell_branch cfg prev last) eqn:Hsell; [|discriminate].
    injection Hsig as <-. unfold sell_branch in Hsell.
    apply andb_true_iff in Hsell as [Hdown Hosc].
    unfold cross_down, float_ge in Hdown. apply andb_true_iff in Hdown as [Hp Hl].
    apply float_le_spec in Hp as (ps & pf & Hps & Hpf & Hple).
    apply float_lt_spec in Hl as (lf & ls & Hlf & Hls & Hllt).
    apply rsi_below_spec in Hosc as (r & Hr & Hrlt).
    exists pre, prev, last, pf, ps, lf, ls, r. auto 12.
Qed.

Lemma detect_signals_signal_inv_witness :
  exists pre prev last pf ps lf ls r,
    [row_0; row_1; row_2] = pre ++ [prev; last] /\
    Z.max (FAST_SMA cfg_1_2) (SLOW_SMA cfg_1_2) + 1
      <= Z.of_nat (length [row_0; row_1; row_2]) /\
    sma_fast prev = Some pf /\ sma_slow prev = Some ps /\
    sma_fast last = Some lf /\ sma_slow last = Some ls /\
    rsi last = Some r /\
    (pf <= ps)%Q /\ (ls < lf)%Q /\ (inject_Z (RSI_OVERSOLD cfg_1_2) < r)%Q.
Proof.
  exact (detect_signals_signal_inv cfg_1_2 [row_0; row_1; row_2] buy eq_refl).
Defined.

Lemma float_lt_of_int_mono (r : float) (a b : Z) :
  a <= b -> float_lt r (of_int a) = true -> float_lt r (of_int b) = true.
Proof.
  intros Hab. rewrite !rsi_below_spec. intros (q & -> & Hq).
  exists q. split; [reflexivity|].
  eapply Qlt_le_trans; [exact Hq|]. now rewrite <- Zle_Qle.
Qed.

Lemma float_gt_of_int_mono (r : float) (a b : Z) :
  a <= b -> float_gt r (of_int b) = true -> float_gt r (of_int a) = true.
Proof.
  intros Hab. rewrite !rsi_above_spec. intros (q & -> & Hq).
  exists q. split; [reflexivity|].
  eapply Qle_lt_trans; [|exact Hq]. now rewrite <- Zle_Qle.
Qed.

(** X3: loosening the oscillator thresholds never loses a signal: with the
    same windows, a lower oversold threshold and a higher overbought
    threshold, every frame that gave buy still gives buy and every frame that
    gave sell still gives sell. *)
Theorem detect_signals_threshold_mono cfg cfg' (df : frame) (sig : signal) :
  FAST_SMA cfg' = FAST_SMA cfg -> SLOW_SMA cfg' = SLOW_SMA cfg ->
  RSI_OVERSOLD cfg' <= RSI_OVERSOLD cfg ->
  RSI_OVERBOUGHT cfg <= RSI_OVERBOUGHT cfg' ->
  detect_signals cfg df = Ok (Some sig) ->
  detect_signals cfg' df = Ok (Some sig).
Proof.
  intros Hfast Hslow Hos Hob Hsig.
  destruct (Z.ltb_spec (Z.of_nat (length df))
              (Z.max (FAST_SMA cfg) (SLOW_SMA cfg) + 1)) as [Hshort | Hpass].
  { unfold detect_signals in Hsig. apply Z.ltb_lt in Hshort. rewrite Hshort in Hsig.
    discriminate. }
  destruct (le_lt_dec 2 (length df)) as [Htwo | Hfew].
  2:{ rewrite (detect_signals_few_rows cfg df Hpass Hfew) in Hsig. discriminate. }
  destruct (last_two_rows df Htwo) as (pre & prev & last & ->).
  rewrite detect_signals_last_two in Hsig by exact Hpass.
  rewrite detect_signals_last_two by (rewrite Hfast, Hslow; exact Hpass).
  unfold buy_branch, sell_branch in *.
  destruct (cross_up prev last) eqn:Hup; cbn [andb] in *.
  - rewrite (cross_exclusive prev last Hup) in *. cbn [andb] in *.
    destruct (float_gt (rsi last) (of_int (RSI_OVERSOLD cfg))) eqn:Hosc; [|discriminate].
    now rewrite (float_gt_of_int_mono _ _ _ Hos Hosc).
  - destruct (cross_down prev last); cbn [andb] in *; [|discriminate].
    destruct (float_lt (rsi last) (of_int (RSI_OVERBOUGHT cfg))) eqn:Hosc; [|discriminate].
    now rewrite (float_lt_of_int_mono _ _ _ Hob Hosc).
Qed.

Lemma detect_signals_threshold_mono_witness :
  detect_signals cfg_1_2_loose [row_0; row_1; row_2] = Ok (Some buy).
Proof.
  apply (detect_signals_threshold_mono cfg_1_2 cfg_1_2_loose [row_0; row_1; row_2] buy);
    [reflexivity | reflexivity | vm_compute; discriminate | vm_compute; discriminate
    | reflexivity].
Defined.

(** ** The computed frame *)



(** ** Lifting a property of one pass to the loop *)

Lemma process_symbol_ok cfg w s st :
  process_symbol cfg w s st = (Ok tt, (process_symbol cfg w s st).2).
Proof.
  destruct (process_symbol_effect cfg w s st) as (evs & st' & Hrun & _).
  now rewrite Hrun.
Qed.

Lemma for_symbols_cons cfg ws k s rest st :
  for_symbols cfg ws k (s :: rest) st =
  for_symbols cfg ws (S k) rest (process_symbol cfg (ws k) s st).2.
Proof.
  cbn [for_symbols]. unfold mbind, M_bind. now rewrite process_symbol_ok.
Qed.

Section Lifting.
Context (cfg : config) (R : state -> state -> Prop).
Hypothesis R_refl : forall st, R st st.
Hypothesis R_trans : forall a b c, R a b -> R b c -> R a c.
Hypothesis R_pass : forall w s st, s ∈ WATCHLIST cfg -> R st (process_symbol cfg w s st).2.
Hypothesis R_sleep : forall st, R st (say Sleep st).

Lemma for_symbols_lift ws symbols : forall k st,
  (forall s, s ∈ symbols -> s ∈ WATCHLIST cfg) ->
  exists st', for_symbols cfg ws k symbols st = (Ok tt, st') /\ R st st'.
Proof.
  induction symbols as [|s rest IH]; intros k st Hsub.
  - exists st. split; [reflexivity | apply R_refl].
  - rewrite for_symbols_cons.
    destruct (IH (S k) (process_symbol cfg (ws k) s st).2) as (st' & Hrun & HR).
    { intros s' Hs'. apply Hsub. now right. }
    exists st'. split; [exact Hrun|].
    eapply R_trans; [|exact HR]. apply R_pass, Hsub. now left.
Qed.

Lemma cycle_lift ws st :
  exists st', cycle cfg ws st = (Ok tt, st') /\ R st st'.
Proof.
  unfold cycle, mbind, M_bind.
  destruct (for_symbols_lift ws (WATCHLIST cfg) 0%nat st) as (st1 & -> & HR); [auto|].
  exists (say Sleep st1). split; [reflexivity|].
  eapply R_trans; [exact HR | apply R_sleep].
Qed.

Lemma cycles_lift world n : forall c st,
  exists st', cycles cfg world c n st = (Ok tt, st') /\ R st st'.
Proof.
  induction n as [|n IH]; intros c st.
  - exists st. split; [reflexivity | apply R_refl].
  - cbn [cycles]. unfold mbind, M_bind.
    destruct (cycle_lift (world c) st) as (st1 & -> & HR1).
    destruct (IH (S c) st1) as (st2 & Hrun & HR2).
    exists st2. split; [exact Hrun | eapply R_trans; eassumption].
Qed.
End Lifting.

(** ** Memory and log move together *)

Lemma record_changes (m : gmap string signal) (s : string) (sig : signal) :
  shouldEmit m s sig = true -> record m s sig <> m.
Proof.
  intros Hfresh Heq. apply bool_decide_eq_true in Hfresh. apply Hfresh.
  rewrite <- Heq at 1. unfold record. apply lookup_insert_eq.
Qed.

Lemma log_signal_write_changes (store : log_store) (r : log_row) :
  log_signal_write store r <> store.
Proof.
  destruct store as [records|]; cbn; [|discriminate].
  intros [= Heq]. apply (f_equal length) in Heq. rewrite length_app in Heq. cbn in Heq. lia.
Qed.

(** X5: in one pass over a symbol the memory changes exactly when the log
    changes: a signal is recorded if and only if a row was appended. *)
Theorem memory_changes_with_log cfg (w : response) (s : string) (st : state) :
  last_signals (process_symbol cfg w s st).2 = last_signals st <->
  log_file (process_symbol cfg w s st).2 = log_file st.
Proof.
  destruct (process_symbol_effect cfg w s st)
    as (evs & st' & Hrun & _ & _ & _ & [[Hm Hl] | (sig & last & _ & Hfresh & Hm & Hl & _)]);
    rewrite Hrun; cbn [snd]; rewrite Hm, Hl.
  - tauto.
  - split; intros H; exfalso.
    + exact (record_changes _ _ _ Hfresh H).
    + exact (log_signal_write_changes _ _ H).
Qed.

(** X6: a pass over symbol [s] leaves the stored signal of every other
    symbol alone, and a symbol that is not on the watchlist keeps what was
    stored for it, or nothing, over any number of cycles. *)
Theorem other_symbols_untouched cfg (S : string) :
  (forall w s st, s <> S ->
     last_signals (process_symbol cfg w s st).2 !! S = last_signals st !! S) /\
  (forall world c n st, S ∉ WATCHLIST cfg ->
     last_signals (cycles cfg world c n st).2 !! S = last_signals st !! S).
Proof.
  assert (Hpass : forall w s st, s <> S ->
     last_signals (process_symbol cfg w s st).2 !! S = last_signals st !! S).
  { intros w s st Hne.
    destruct (process_symbol_effect cfg w s st)
      as (evs & st' & Hrun & _ & _ & _ & [[Hm _] | (sig & last & _ & _ & Hm & _)]);
      rewrite Hrun; cbn [snd]; rewrite Hm; [reflexivity|].
    unfold record. now rewrite lookup_insert_ne. }
  split; [exact Hpass|].
  intros world c n st Hout.
  destruct (cycles_lift cfg
              (fun a b => last_signals b !! S = last_signals a !! S)) with
    (world := world) (n := n) (c := c) (st := st) as (st' & Hrun & HR).
  - reflexivity.
  - intros a b d Hab Hbd. now rewrite Hbd.
  - intros w s a Hin. apply Hpass. intros ->. contradiction.
  - reflexivity.
  - now rewrite Hrun.
Qed.

Lemma other_symbols_untouched_witness :
  last_signals (process_symbol cfg_1_2 all_up "X" st_bought).2 !! "Y"%string
    = last_signals st_bought !! "Y"%string /\
  last_signals (cycles cfg_1_2 (fun _ _ => all_up) 0 3 st_bought).2 !! "Y"%string
    = last_signals st_bought !! "Y"%string.
Proof.
  destruct (other_symbols_untouched cfg_1_2 "Y") as [Hpass Hloop].
  split.
  - apply Hpass. discriminate.
  - apply Hloop. cbn. intros Hin. apply list_elem_of_singleton in Hin. discriminate.
Defined.

(** ** The log over the whole run *)

Lemma log_signal_write_rows (records : list csv_record) (rows : list log_row) :
  foldl log_signal_write (Some records) rows = Some (records ++ (Data <$> rows)).
Proof.
  revert records. induction rows as [|r rows IH]; intros records; cbn.
  - now rewrite app_nil_r.
  - rewrite IH, <- app_assoc. reflexivity.
Qed.

(** X7: the loop only ever appends to the log.  Over any number of cycles
    the log is the old log followed by data rows of watchlist symbols: a log
    that existed keeps its records as they were and gets no header, whether
    it had one or not; a log that did not exist is still absent or starts
    with the one header. *)
Theorem log_append_only cfg (world : nat -> nat -> response) (c n : nat) (st : state) :
  exists rows : list log_row,
    Forall (fun r => row_symbol r ∈ WATCHLIST cfg) rows /\
    log_file (cycles cfg world c n st).2 = foldl log_signal_write (log_file st) rows /\
    (forall records, log_file st = Some records ->
       log_file (cycles cfg world c n st).2 = Some (records ++ (Data <$> rows))) /\
    (log_file st = None ->
       log_file (cycles cfg world c n st).2 =
         match rows with
         | [] => None
         | _ => Some (Header log_columns :: (Data <$> rows))
         end).
Proof.
  destruct (cycles_lift cfg
              (fun a b => exists rows : list log_row,
                 Forall (fun r => row_symbol r ∈ WATCHLIST cfg) rows /\
                 log_file b = foldl log_signal_write (log_file a) rows)) with
    (world := world) (n := n) (c := c) (st := st) as (st' & Hrun & rows & Hrows & Hlog).
  - intros a. exists []. split; [constructor | reflexivity].
  - intros a b d (r1 & H1 & E1) (r2 & H2 & E2). exists (r1 ++ r2).
    split; [now apply Forall_app|]. now rewrite foldl_app, <- E1.
  - intros w s a Hin.
    destruct (process_symbol_effect cfg w s a)
      as (evs & st' & Hrun & _ & _ & _ & [[_ Hl] | (sig & last & _ & _ & _ & Hl & _)]);
      rewrite Hrun; cbn [snd].
    + exists []. split; [constructor | exact Hl].
    + exists [row_of w s sig last]. split; [|exact Hl].
      constructor; [exact Hin | constructor].
  - intros a. exists []. split; [constructor | reflexivity].
  - rewrite Hrun. cbn [snd]. exists rows. split; [exact Hrows|]. split; [exact Hlog|].
    split.
    + intros records Hsome. rewrite Hlog, Hsome. apply log_signal_write_rows.
    + intros Hnone. rewrite Hlog, Hnone. destruct rows as [|r rows]; [reflexivity|].
      cbn [foldl log_signal_write]. now rewrite log_signal_write_rows.
Qed.

Lemma log_append_only_witness :
  exists rows : list log_row,
    log_file (cycles cfg_1_2 (fun _ _ => all_up) 0 2 (initial_state (Some []))).2
      = Some ([] ++ (Data <$> rows)).
Proof.
  destruct (log_append_only cfg_1_2 (fun _ _ => all_up) 0 2 (initial_state (Some [])))
    as (rows & _ & _ & Hsome & _).
  exists rows. apply Hsome. reflexivity.
Defined.

Lemma logged_write (store : log_store) (r : log_row) :
  logged (log_signal_write store r) = record (logged store) (row_symbol r) (row_signal r).
Proof.
  unfold logged. destruct store as [records|]; cbn [log_signal_write from_option id].
  - now rewrite foldl_app.
  - reflexivity.
Qed.

Lemma alternates_snoc (records : list csv_record) (r : log_row) : forall m,
  alternates m records ->
  foldl replay_record m records !! row_symbol r <> Some (row_signal r) ->
  alternates m (records ++ [Data r]).
Proof.
  induction records as [|[cols|r'] records IH]; intros m Halt Hnew; cbn in *.
  - auto.
  - now apply IH.
  - destruct Halt as [H1 H2]. split; [exact H1 | now apply IH].
Qed.

(** X8: the memory is the log replayed.  If the stored signals agree with
    the last logged signal of every symbol, as they do when the program starts
    on a log that is absent or holds no rows, they still agree after any
    number of cycles, whatever fails on the way. *)
Theorem memory_is_logged cfg (world : nat -> nat -> response) (c n : nat) (st : state) :
  last_signals st = logged (log_file st) ->
  last_signals (cycles cfg world c n st).2 = logged (log_file (cycles cfg world c n st).2).
Proof.
  destruct (cycles_lift cfg
              (fun a b => last_signals a = logged (log_file a) ->
                          last_signals b = logged (log_file b))) with
    (world := world) (n := n) (c := c) (st := st) as (st' & Hrun & HR).
  - auto.
  - auto.
  - intros w s a _ Ha.
    destruct (process_symbol_effect cfg w s a)
      as (evs & st' & Hrun & _ & _ & _ & [[Hm Hl] | (sig & last & _ & _ & Hm & Hl & _)]);
      rewrite Hrun; cbn [snd]; rewrite Hm, Hl; [exact Ha|].
    rewrite logged_write, Ha. reflexivity.
  - auto.
  - rewrite Hrun. exact HR.
Qed.

Lemma memory_is_logged_witness :
  last_signals (main_loop cfg_1_2 (fun _ _ => all_up) 2 None).2
    = logged (log_file (main_loop cfg_1_2 (fun _ _ => all_up) 2 None).2).
Proof.
  apply (memory_is_logged cfg_1_2 (fun _ _ => all_up) 0 2 (initial_state None)).
  reflexivity.
Defined.

Lemma alternates_keeps (mid : list csv_record) (s : string) (sig : signal) : forall m,
  m !! s = Some sig ->
  (forall r, Data r ∈ mid -> row_symbol r <> s) ->
  foldl replay_record m mid !! s = Some sig.
Proof.
  induction mid as [|[cols|r] mid IH]; intros m Hm Hmid; cbn.
  - exact Hm.
  - apply IH; [exact Hm|]. intros r Hr. apply Hmid. now right.
  - apply IH.
    + unfold record. rewrite lookup_insert_ne; [exact Hm|]. apply Hmid. now left.
    + intros r' Hr'. apply Hmid. now right.
Qed.

Lemma alternates_app (l1 l2 : list csv_record) : forall m,
  alternates m (l1 ++ l2) -> alternates (foldl replay_record m l1) l2.
Proof.
  induction l1 as [|[cols|r] l1 IH]; intros m Halt; cbn in *.
  - exact Halt.
  - now apply IH.
  - apply IH. now destruct Halt.
Qed.

Lemma alternates_next (m : gmap string signal) (l1 mid l2 : list csv_record)
    (r1 r2 : log_row) :
  alternates m (l1 ++ Data r1 :: mid ++ Data r2 :: l2) ->
  row_symbol r1 = row_symbol r2 ->
  (forall r, Data r ∈ mid -> row_symbol r <> row_symbol r1) ->
  row_signal r1 <> row_signal r2.
Proof.
  intros Halt Hsym Hmid Hsig.
  apply alternates_app in Halt. cbn in Halt. destruct Halt as [_ Halt].
  apply alternates_app in Halt. cbn in Halt. destruct Halt as [Hnew _].
  apply Hnew. rewrite <- Hsym, <- Hsig.
  apply alternates_keeps; [|exact Hmid].
  unfold record. apply lookup_insert_eq.
Qed.

Lemma cycles_log_consistent cfg (world : nat -> nat -> response) (n : nat) :
  alternates ∅ (default [] (log_file (main_loop cfg world n None).2)).
Proof.
  unfold main_loop.
  destruct (cycles_lift cfg
              (fun a b =>
                 last_signals a = logged (log_file a) /\
                 alternates ∅ (default [] (log_file a)) ->
                 last_signals b = logged (log_file b) /\
                 alternates ∅ (default [] (log_file b)))) with
    (world := world) (n := n) (c := 0%nat) (st := initial_state None)
    as (st' & Hrun & HR).
  - auto.
  - auto.
  - intros w s a _ [Ha Halt].
    destruct (process_symbol_effect cfg w s a)
      as (evs & st' & Hrun & _ & _ & _ & [[Hm Hl] | (sig & last & _ & Hfresh & Hm & Hl & _)]);
      rewrite Hrun; cbn [snd]; rewrite Hm, Hl; [now split|].
    split; [rewrite logged_write, Ha; reflexivity|].
    apply bool_decide_eq_true in Hfresh. rewrite Ha in Hfresh.
    destruct (log_file a) as [records|]; cbn [log_signal_write from_option id].
    + apply alternates_snoc; [exact Halt | exact Hfresh].
    + cbn. split; [|exact I]. rewrite lookup_empty. discriminate.
  - auto.
  - rewrite Hrun. cbn [snd]. apply HR. split; [reflexivity | exact I].
Qed.

(** X9: the log never repeats itself.  Started on an absent log, after any
    number of cycles, two data rows of the same symbol with no row of that
    symbol between them carry different signals: the buys and sells logged
    for a symbol alternate. *)
Theorem log_alternates cfg (world : nat -> nat -> response) (n : nat)
    (l1 mid l2 : list csv_record) (r1 r2 : log_row) :
  log_file (main_loop cfg world n None).2 = Some (l1 ++ Data r1 :: mid ++ Data r2 :: l2) ->
  row_symbol r1 = row_symbol r2 ->
  (forall r, Data r ∈ mid -> row_symbol r <> row_symbol r1) ->
  row_signal r1 <> row_signal r2.
Proof.
  intros Hlog Hsym Hmid.
  pose proof (cycles_log_consistent cfg world n) as Halt.
  rewrite Hlog in Halt. cbn [from_option id] in Halt.
  exact (alternates_next ∅ l1 mid l2 r1 r2 Halt Hsym Hmid).
Qed.

Lemma log_alternates_witness :
  row_signal (row_of all_up "X" buy row_2) <> row_signal (row_of all_down "X" sell row_5).
Proof.
  apply (log_alternates cfg_1_2 up_then_down 2
           [Header log_columns] [] []
           (row_of all_up "X" buy row_2) (row_of all_down "X" sell row_5)).
  - reflexivity.
  - reflexivity.
  - intros r Hr. apply elem_of_nil in Hr. contradiction.
Defined.

(** ** When an e-mail goes out *)

(** X10: a pass over a symbol asks for at most one e-mail, and only for a
    signal that the detector returned on the downloaded bars and that differs
    from the signal stored for the symbol: nothing is mailed without a signal,
    and a stored signal is never mailed again. *)
Theorem email_only_for_fresh_signal cfg (w : response) (s : string) (st : state) :
  exists evs,
    console (process_symbol cfg w s st).2 = console st ++ evs /\
    (length (emails evs) <= 1)%nat /\
    forall m, m ∈ emails evs ->
      msg_symbol m = s /\
      last_signals st !! s <> Some (msg_signal m) /\
      exists bars df,
        download w = Ok bars /\ compute_indicators cfg bars = Ok df /\
        detect_signals cfg df = Ok (Some (msg_signal m)).
Proof.
  assert (Hnone : forall evs : list event, emails evs = [] ->
            (length (emails evs) <= 1)%nat /\
            forall m, m ∈ emails evs ->
              msg_symbol m = s /\
              last_signals st !! s <> Some (msg_signal m) /\
              exists bars df,
                download w = Ok bars /\ compute_indicators cfg bars = Ok df /\
                detect_signals cfg df = Ok (Some (msg_signal m))).
  { intros evs ->. split; [cbn; lia|]. intros m Hm. apply elem_of_nil in Hm. contradiction. }
  step_M.
  destruct (download w) as [bars|e] eqn:Hdl; cbn.
  2:{ exists [Fetch s; ExceptionProcessing s e]. split; [cbn; rewrite <- ?app_assoc; reflexivity | apply Hnone; reflexivity]. }
  destruct (is_empty bars); cbn.
  { exists [Fetch s]. split; [reflexivity | apply Hnone; reflexivity]. }
  destruct (compute_indicators cfg bars) as [df|e] eqn:Hci; cbn.
  2:{ exists [Fetch s; ExceptionProcessing s e]. split; [cbn; rewrite <- ?app_assoc; reflexivity | apply Hnone; reflexivity]. }
  destruct (detect_signals cfg df) as [sig|e] eqn:Hds; cbn.
  2:{ exists [Fetch s; ExceptionProcessing s e]. split; [cbn; rewrite <- ?app_assoc; reflexivity | apply Hnone; reflexivity]. }
  destruct (iloc df (-1)) as [last|e]; cbn.
  2:{ exists [Fetch s; ExceptionProcessing s e]. split; [cbn; rewrite <- ?app_assoc; reflexivity | apply Hnone; reflexivity]. }
  destruct sig as [sig|]; cbn.
  2:{ exists [Fetch s; InfoChecked s (now w) (close last)]. split; [cbn; rewrite <- ?app_assoc; reflexivity | apply Hnone; reflexivity]. }
  destruct (shouldEmit (last_signals st) s sig) eqn:Hfresh; cbn.
  2:{ exists [Fetch s; InfoChecked s (now w) (close last)]. split; [cbn; rewrite <- ?app_assoc; reflexivity | apply Hnone; reflexivity]. }
  apply bool_decide_eq_true in Hfresh.
  assert (Hone : forall evs : list event,
            emails evs = [body_of w s sig last] ->
            (length (emails evs) <= 1)%nat /\
            forall m, m ∈ emails evs ->
              msg_symbol m = s /\
              last_signals st !! s <> Some (msg_signal m) /\
              exists bars0 df0,
                Ok bars = Ok bars0 /\ compute_indicators cfg bars0 = Ok df0 /\
                detect_signals cfg df0 = Ok (Some (msg_signal m))).
  { intros evs ->. split; [cbn; lia|]. intros m Hm.
    apply list_elem_of_singleton in Hm as ->. cbn.
    split; [reflexivity|]. split; [exact Hfresh|]. exists bars, df. auto. }
  exists ([Fetch s; InfoChecked s (now w) (close last); notified w (body_of w s sig last)]
          ++ (if disk_ok w then [] else [ExceptionProcessing s OSError])).
  split.
  - unfold notified, body_of. destruct (smtp_ok w), (disk_ok w); cbn;
      rewrite <- !app_assoc; reflexivity.
  - apply Hone. unfold notified. destruct (smtp_ok w), (disk_ok w); reflexivity.
Qed.

Lemma email_only_for_fresh_signal_witness :
  msg_symbol (body_of smtp_down "X" buy row_2) = "X"%string /\
  last_signals (initial_state None) !! "X"%string
    <> Some (msg_signal (body_of smtp_down "X" buy row_2)).
Proof.
  destruct (email_only_for_fresh_signal cfg_1_2 smtp_down "X" (initial_state None))
    as (evs & Hcon & _ & Hm).
  destruct (Hm (body_of smtp_down "X" buy row_2)) as (Hsym & Hfresh & _).
  - change (console (initial_state None) ++ evs) with evs in Hcon.
    rewrite <- Hcon. cbn. apply list_elem_of_singleton. reflexivity.
  - split; [exact Hsym | exact Hfresh].
Defined.

Lemma detect_signals_two_rows cfg (df : frame) (sig : signal) :
  detect_signals cfg df = Ok (Some sig) -> exists last, iloc df (-1) = Ok last.
Proof.
  intros Hsig. apply iloc_in_range.
  destruct (Z.ltb_spec (Z.of_nat (length df))
              (Z.max (FAST_SMA cfg) (SLOW_SMA cfg) + 1)) as [Hshort | Hpass].
  { unfold detect_signals in Hsig. apply Z.ltb_lt in Hshort. rewrite Hshort in Hsig.
    discriminate. }
  destruct (le_lt_dec 2 (length df)) as [Htwo | Hfew]; [lia|].
  rewrite (detect_signals_few_rows cfg df Hpass Hfew) in Hsig. discriminate.
Qed.

Lemma compute_indicators_nonempty cfg (bars : list Q) (df : frame) (last : row) :
  compute_indicators cfg bars = Ok df -> iloc df (-1) = Ok last -> bars <> [].
Proof.
  unfold compute_indicators, window, mbind, result_bind, mret, result_ret.
  destruct (FAST_SMA cfg <=? 0); [discriminate|].
  destruct (SLOW_SMA cfg <=? 0); [discriminate|].
  destruct (RSI_PERIOD cfg <=? 0); [discriminate|].
  intros [= <-] Hlast ->. discriminate Hlast.
Qed.

(** A pass that sees the signal already stored for the symbol only fetches
    and logs its check line. *)
Lemma process_symbol_stored cfg w s st bars df sig last :
  download w = Ok bars -> compute_indicators cfg bars = Ok df ->
  detect_signals cfg df = Ok (Some sig) -> iloc df (-1) = Ok last ->
  last_signals st !! s = Some sig ->
  process_symbol cfg w s st =
    (Ok tt, say (InfoChecked s (now w) (close last)) (say (Fetch s) st)).
Proof.
  intros Hdl Hci Hds Hil Hstored.
  pose proof (compute_indicators_nonempty cfg bars df last Hci Hil) as Hne.
  step_M. rewrite Hdl. cbn. destruct bars as [|b bars]; [congruence|]. cbn.
  rewrite Hci. cbn. rewrite Hds. cbn. rewrite Hil. cbn.
  assert (shouldEmit (last_signals st) s sig = false) as ->; [|reflexivity].
  apply bool_decide_eq_false. rewrite Hstored. auto.
Qed.

(** X11: once a pass with a working log has seen a signal for a symbol, the
    signal is stored, and a following pass that sees the same signal does
    nothing but fetch and log its check line: no e-mail, no log row, no change
    of the memory. *)
Theorem repeated_signal_suppressed cfg (w0 w : response) (s : string) (st0 : state)
    (bars : list Q) (df : frame) (sig : signal) :
  download w0 = Ok bars -> download w = Ok bars ->
  compute_indicators cfg bars = Ok df ->
  detect_signals cfg df = Ok (Some sig) ->
  disk_ok w0 = true ->
  exists last,
    iloc df (-1) = Ok last /\
    last_signals (process_symbol cfg w0 s st0).2 !! s = Some sig /\
    process_symbol cfg w s (process_symbol cfg w0 s st0).2 =
      (Ok tt, say (InfoChecked s (now w) (close last))
                (say (Fetch s) (process_symbol cfg w0 s st0).2)).
Proof.
  intros Hdl0 Hdl Hci Hds Hdisk.
  destruct (detect_signals_two_rows cfg df sig Hds) as [last Hil].
  exists last. split; [exact Hil|].
  assert (Hstored : last_signals (process_symbol cfg w0 s st0).2 !! s = Some sig).
  { destruct (shouldEmit (last_signals st0) s sig) eqn:Hfresh.
    - rewrite (process_symbol_emits cfg w0 s st0 bars df sig last Hdl0
                 (compute_indicators_nonempty cfg bars df last Hci Hil) Hci Hds Hil Hfresh).
      rewrite Hdisk. cbn. unfold record. apply lookup_insert_eq.
    - apply bool_decide_eq_false in Hfresh.
      assert (Hold : last_signals st0 !! s = Some sig).
      { destruct (decide (last_signals st0 !! s = Some sig)); [assumption | contradiction]. }
      rewrite (process_symbol_stored cfg w0 s st0 bars df sig last Hdl0 Hci Hds Hil Hold).
      exact Hold. }
  split; [exact Hstored|].
  exact (process_symbol_stored cfg w s _ bars df sig last Hdl Hci Hds Hil Hstored).
Qed.

Lemma repeated_signal_suppressed_witness :
  exists last,
    iloc [row_0; row_1; row_2] (-1) = Ok last /\
    last_signals (process_symbol cfg_1_2 smtp_down "X" (initial_state None)).2 !! "X"%string
      = Some buy /\
    process_symbol cfg_1_2 all_up "X"
        (process_symbol cfg_1_2 smtp_down "X" (initial_state None)).2 =
      (Ok tt, say (InfoChecked "X" (now all_up) (close last))
                (say (Fetch "X")
                   (process_symbol cfg_1_2 smtp_down "X" (initial_state None)).2)).
Proof.
  exact (repeated_signal_suppressed cfg_1_2 smtp_down all_up "X" (initial_state None)
           bars_up [row_0; row_1; row_2] buy eq_refl eq_refl eq_refl eq_refl eq_refl).
Defined.

(** X12: while the log cannot be written the same signal is mailed again in
    every cycle: with one symbol on the watchlist whose bars keep giving a
    signal that is not the stored one, [n] cycles with a failing log ask for
    [n] e-mails and leave memory and log as they were. *)
Theorem failing_log_repeats_email cfg (world : nat -> nat -> response) (s : string)
    (bars : list Q) (df : frame) (sig : signal) (n : nat) :
  WATCHLIST cfg = [s] ->
  (forall c k, download (world c k) = Ok bars /\ disk_ok (world c k) = false) ->
  compute_indicators cfg bars = Ok df ->
  detect_signals cfg df = Ok (Some sig) ->
  forall c st,
    shouldEmit (last_signals st) s sig = true ->
    exists evs,
      console (cycles cfg world c n st).2 = console st ++ evs /\
      length (emails evs) = n /\
      last_signals (cycles cfg world c n st).2 = last_signals st /\
      log_file (cycles cfg world c n st).2 = log_file st.
Proof.
  intros Hlist Hworld Hci Hds.
  destruct (detect_signals_two_rows cfg df sig Hds) as [last Hil].
  pose proof (compute_indicators_nonempty cfg bars df last Hci Hil) as Hne.
  induction n as [|n IH]; intros c st Hfresh.
  - exists []. cbn. rewrite app_nil_r. auto.
  - cbn [cycles]. unfold mbind, M_bind, cycle. rewrite Hlist.
    unfold mbind, M_bind. rewrite for_symbols_cons.
    destruct (Hworld c 0%nat) as [Hdl Hdisk].
    rewrite (process_symbol_emits cfg (world c 0%nat) s st bars df sig last
               Hdl Hne Hci Hds Hil Hfresh), Hdisk.
    cbn [snd for_symbols]. unfold mret, M_ret, emit.
    match goal with
    | |- context [cycles cfg world (S c) n ?st1] =>
        destruct (IH (S c) st1) as (evs & Hcon & Hlen & Hm & Hl); [exact Hfresh|]
    end.
    exists ([Fetch s; InfoChecked s (now (world c 0%nat)) (close last);
             notified (world c 0%nat) (body_of (world c 0%nat) s sig last);
             ExceptionProcessing s OSError; Sleep] ++ evs).
    rewrite Hcon, Hm, Hl. cbn [console say last_signals log_file].
    split; [rewrite <- !app_assoc; reflexivity|].
    split; [|split; reflexivity].
    unfold emails in *. rewrite omap_app, length_app, Hlen.
    unfold notified. destruct (smtp_ok (world c 0%nat)); reflexivity.
Qed.

Lemma failing_log_repeats_email_witness :
  exists evs,
    console (cycles cfg_1_2 (fun _ _ => disk_down) 0 3 (initial_state None)).2
      = console (initial_state None) ++ evs /\
    length (emails evs) = 3%nat /\
    last_signals (cycles cfg_1_2 (fun _ _ => disk_down) 0 3 (initial_state None)).2
      = last_signals (initial_state None) /\
    log_file (cycles cfg_1_2 (fun _ _ => disk_down) 0 3 (initial_state None)).2
      = log_file (initial_state None).
Proof.
  apply (failing_log_repeats_email cfg_1_2 (fun _ _ => disk_down) "X" bars_up
           [row_0; row_1; row_2] buy 3 eq_refl (fun _ _ => conj eq_refl eq_refl)
           eq_refl eq_refl 0%nat (initial_state None)).
  reflexivity.
Defined.

(** ** The watchlist *)

Lemma is_space_upper_char (c : ascii) : is_space (upper_char c) = is_space c.
Proof. destruct c as [[] [] [] [] [] [] [] []]; reflexivity. Qed.

Lemma upper_char_idemp (c : ascii) : upper_char (upper_char c) = upper_char c.
Proof. destruct c as [[] [] [] [] [] [] [] []]; reflexivity. Qed.

Lemma upper_char_comma (c : ascii) : Ascii.eqb (upper_char c) ","%char = Ascii.eqb c ","%char.
Proof. destruct c as [[] [] [] [] [] [] [] []]; reflexivity. Qed.

Lemma upper_idemp (s : list ascii) : upper (upper s) = upper s.
Proof.
  unfold upper. rewrite <- list_fmap_compose. apply list_fmap_ext.
  intros i c _. apply upper_char_idemp.
Qed.

Lemma lstrip_upper (s : list ascii) : lstrip (upper s) = upper (lstrip s).
Proof.
  induction s as [|c s IH]; [reflexivity|]. cbn.
  rewrite is_space_upper_char. destruct (is_space c); [exact IH | reflexivity].
Qed.

Lemma rstrip_upper (s : list ascii) : rstrip (upper s) = upper (rstrip s).
Proof.
  induction s as [|c s IH]; [reflexivity|]. cbn.
  change (upper_char <$> s) with (upper s). rewrite IH.
  destruct (rstrip s) as [|k kept]; cbn; [|reflexivity].
  rewrite is_space_upper_char. now destruct (is_space c).
Qed.

Lemma strip_upper (s : list ascii) : strip (upper s) = upper (strip s).
Proof. unfold strip. now rewrite lstrip_upper, rstrip_upper. Qed.

Lemma rstrip_idemp (s : list ascii) : rstrip (rstrip s) = rstrip s.
Proof.
  induction s as [|c s IH]; [reflexivity|]. cbn.
  destruct (rstrip s) as [|k kept] eqn:E.
  - destruct (is_space c) eqn:Hc; cbn; [reflexivity | now rewrite Hc].
  - cbn [rstrip] in *. now rewrite IH.
Qed.

Lemma lstrip_head (s : list ascii) :
  match lstrip s with [] => True | c :: _ => is_space c = false end.
Proof.
  induction s as [|c s IH]; cbn; [exact I|].
  destruct (is_space c) eqn:Hc; [exact IH | exact Hc].
Qed.

Lemma rstrip_head (s : list ascii) :
  match s with [] => True | c :: _ => is_space c = false end ->
  match rstrip s with [] => True | c :: _ => is_space c = false end.
Proof.
  destruct s as [|c s]; cbn; [auto|]. intros Hc.
  destruct (rstrip s); [now rewrite Hc | exact Hc].
Qed.

Lemma lstrip_clean (s : list ascii) :
  match s with [] => True | c :: _ => is_space c = false end -> lstrip s = s.
Proof. destruct s as [|c s]; cbn; [auto|]. now intros ->. Qed.

Lemma strip_idemp (s : list ascii) : strip (strip s) = strip s.
Proof.
  unfold strip. rewrite (lstrip_clean (rstrip (lstrip s))).
  - apply rstrip_idemp.
  - apply rstrip_head, lstrip_head.
Qed.

Lemma lstrip_no_comma (s : list ascii) : ","%char ∉ s -> ","%char ∉ lstrip s.
Proof.
  induction s as [|c s IH]; cbn; [auto|]. intros Hs.
  destruct (is_space c); [|exact Hs]. apply IH.
  now apply not_elem_of_cons in Hs as [_ Hs].
Qed.

Lemma rstrip_no_comma (s : list ascii) : ","%char ∉ s -> ","%char ∉ rstrip s.
Proof.
  induction s as [|c s IH]; cbn; [auto|]. intros Hs.
  apply not_elem_of_cons in Hs as [Hc Hs]. specialize (IH Hs).
  destruct (rstrip s) as [|k kept]; [destruct (is_space c)|].
  - apply not_elem_of_nil.
  - apply not_elem_of_cons. split; [exact Hc | apply not_elem_of_nil].
  - apply not_elem_of_cons. split; [exact Hc | exact IH].
Qed.

Lemma upper_no_comma (s : list ascii) : ","%char ∉ s -> ","%char ∉ upper s.
Proof.
  intros Hs Hin. apply Hs. unfold upper in Hin.
  apply list_elem_of_fmap in Hin as (c & Hc & Hin).
  assert (c = ","%char) as <-; [|exact Hin].
  apply Ascii.eqb_eq. rewrite <- upper_char_comma, <- Hc. apply Ascii.eqb_refl.
Qed.

Lemma split_not_nil (sep : ascii) (s : list ascii) : split sep s <> [].
Proof.
  induction s as [|c s IH]; cbn; [discriminate|].
  destruct (Ascii.eqb c sep); [discriminate|]. now destruct (split sep s).
Qed.

Lemma split_length (sep : ascii) (s : list ascii) :
  length (split sep s) = S (length (filter (fun c => c = sep) s)).
Proof.
  induction s as [|c s IH]; [reflexivity|]. cbn [split].
  destruct (Ascii.eqb_spec c sep) as [->|Hne].
  - rewrite filter_cons_True by reflexivity. cbn. now rewrite IH.
  - rewrite filter_cons_False by exact Hne.
    pose proof (split_not_nil sep s). destruct (split sep s); [contradiction | exact IH].
Qed.

Lemma split_fields (sep : ascii) (s : list ascii) :
  Forall (fun field => sep ∉ field) (split sep s).
Proof.
  induction s as [|c s IH]; cbn [split].
  - constructor; [apply not_elem_of_nil | constructor].
  - destruct (Ascii.eqb_spec c sep) as [->|Hne].
    + constructor; [apply not_elem_of_nil | exact IH].
    + destruct (split sep s) as [|field fields].
      * constructor; [|constructor].
        apply not_elem_of_cons. split; [congruence | apply not_elem_of_nil].
      * inversion IH as [|? ? Hfield Hfields]; subst.
        constructor; [|exact Hfields].
        apply not_elem_of_cons. split; [congruence | exact Hfield].
Qed.

Lemma split_one_field (sep : ascii) (field : list ascii) :
  sep ∉ field -> split sep field = [field].
Proof.
  induction field as [|c field IH]; [reflexivity|]. intros Hno. cbn [split].
  apply not_elem_of_cons in Hno as [Hc Hno].
  destruct (Ascii.eqb_spec c sep) as [->|Hne]; [congruence|].
  now rewrite IH.
Qed.

Lemma split_app_sep (sep : ascii) (field rest : list ascii) :
  sep ∉ field -> split sep (field ++ sep :: rest) = field :: split sep rest.
Proof.
  induction field as [|c field IH]; intros Hno; cbn [split app].
  - now rewrite Ascii.eqb_refl.
  - apply not_elem_of_cons in Hno as [Hc Hno].
    destruct (Ascii.eqb_spec c sep) as [->|Hne]; [congruence|].
    now rewrite IH.
Qed.

Lemma split_join (sep : ascii) (fields : list (list ascii)) :
  fields <> [] -> Forall (fun field => sep ∉ field) fields ->
  split sep (join sep fields) = fields.
Proof.
  induction fields as [|field [|next rest] IH]; intros Hne Hall; [congruence| |].
  - cbn. apply split_one_field. now inversion Hall.
  - cbn [join]. inversion Hall as [|? ? Hfield Hrest]; subst.
    rewrite split_app_sep by exact Hfield. f_equal. apply IH; [discriminate | exact Hrest].
Qed.

Lemma normal_no_comma (field : list ascii) :
  ","%char ∉ field -> ","%char ∉ upper (strip field).
Proof.
  intros Hno. apply upper_no_comma. unfold strip.
  apply rstrip_no_comma, lstrip_no_comma, Hno.
Qed.

Lemma normal_idemp (field : list ascii) :
  upper (strip (upper (strip field))) = upper (strip field).
Proof. now rewrite strip_upper, upper_idemp, strip_idemp. Qed.

Lemma lstrip_blank (field : list ascii) :
  Forall (fun c => is_space c = true) field -> lstrip field = [].
Proof.
  induction 1 as [|c field Hc _ IH]; [reflexivity|]. cbn. now rewrite Hc.
Qed.

(** X13: the watchlist is never empty: it has one symbol more than the
    value has commas, so an empty value, a doubled comma or a comma at the end
    each put a symbol on the list, which after stripping may be the empty
    string. *)
Theorem parse_watchlist_length (env : option string) :
  length (parse_watchlist env) =
    S (length (filter (fun c => c = ","%char)
                 (list_ascii_of_string (default "AAPL"%string env)))) /\
  parse_watchlist env <> [] /\
  (forall field,
     field ∈ split "," (list_ascii_of_string (default "AAPL"%string env)) ->
     Forall (fun c => is_space c = true) field ->
     ""%string ∈ parse_watchlist env).
Proof.
  unfold parse_watchlist. rewrite length_fmap, split_length.
  split; [reflexivity|]. split.
  - intros Hnil. apply fmap_nil_inv in Hnil. exact (split_not_nil _ _ Hnil).
  - intros field Hin Hblank. apply list_elem_of_fmap. exists field. split; [|exact Hin].
    unfold strip. rewrite (lstrip_blank field Hblank). reflexivity.
Qed.

Lemma parse_watchlist_length_witness :
  ""%string ∈ parse_watchlist (Some "aapl, "%string).
Proof.
  apply (proj2 (proj2 (parse_watchlist_length (Some "aapl, "%string))) [" "%char]).
  - cbn. set_solver.
  - repeat constructor.
Defined.

(** X14: every symbol of the watchlist is in normal form: it contains no
    comma, has no white space at either end, and has no lower-case letter, so
    stripping it or upper-casing it again changes nothing. *)
Theorem parse_watchlist_normal (env : option string) (symbol : string) :
  Forall (fun c => is_ascii c = true) (list_ascii_of_string (default "AAPL"%string env)) ->
  symbol ∈ parse_watchlist env ->
  (","%char ∉ list_ascii_of_string symbol) /\
  strip (list_ascii_of_string symbol) = list_ascii_of_string symbol /\
  upper (list_ascii_of_string symbol) = list_ascii_of_string symbol.
Proof.
  intros _ Hin. unfold parse_watchlist in Hin.
  apply list_elem_of_fmap in Hin as (field & -> & Hfield).
  rewrite list_ascii_of_string_of_list_ascii.
  split; [|split].
  - apply normal_no_comma.
    pose proof (split_fields "," (list_ascii_of_string (default "AAPL"%string env))) as Hall.
    rewrite Forall_forall in Hall. now apply Hall.
  - now rewrite strip_upper, strip_idemp.
  - apply upper_idemp.
Qed.

Lemma parse_watchlist_normal_witness :
  (","%char ∉ list_ascii_of_string "MSFT") /\
  strip (list_ascii_of_string "MSFT") = list_ascii_of_string "MSFT" /\
  upper (list_ascii_of_string "MSFT") = list_ascii_of_string "MSFT".
Proof.
  apply (parse_watchlist_normal (Some " aapl, msft ,"%string) "MSFT").
  - repeat constructor.
  - cbn. set_solver.
Defined.

(** X15: parsing is stable: joining the parsed watchlist with commas and
    parsing the result gives the same watchlist again. *)
Theorem parse_watchlist_join (env : option string) :
  Forall (fun c => is_ascii c = true) (list_ascii_of_string (default "AAPL"%string env)) ->
  parse_watchlist (Some (join_watchlist (parse_watchlist env))) = parse_watchlist env.
Proof.
  intros _. unfold parse_watchlist, join_watchlist. cbn [from_option id].
  set (fields := split "," (list_ascii_of_string (default "AAPL"%string env))).
  rewrite list_ascii_of_string_of_list_ascii, <- list_fmap_compose.
  rewrite (list_fmap_ext _ (fun field => upper (strip field)) fields)
    by (intros i field _; apply list_ascii_of_string_of_list_ascii).
  rewrite split_join.
  - rewrite <- list_fmap_compose. apply list_fmap_ext.
    intros i field _. unfold compose. now rewrite normal_idemp.
  - intros Hnil. apply fmap_nil_inv in Hnil. exact (split_not_nil _ _ Hnil).
  - apply Forall_fmap. eapply Forall_impl; [apply split_fields|].
    intros field Hno. apply normal_no_comma, Hno.
Qed.

Lemma parse_watchlist_join_witness :
  parse_watchlist (Some (join_watchlist (parse_watchlist (Some " aapl, msft ,"%string))))
    = parse_watchlist (Some " aapl, msft ,"%string).
Proof.
  apply (parse_watchlist_join (Some " aapl, msft ,"%string)). repeat constructor.
Defined.

(** ** The log against the mail *)

(** X16: the log is an extract of the mail.  Over any number of cycles the
    bodies of the rows appended to the log are, in order, among the bodies
    that [send_email] was asked to send in those cycles; so there are never
    more new rows than e-mails. *)
Theorem logged_rows_were_mailed cfg (world : nat -> nat -> response) (c n : nat)
    (st : state) :
  exists (rows : list log_row) (evs : list event),
    log_file (cycles cfg world c n st).2 = foldl log_signal_write (log_file st) rows /\
    console (cycles cfg world c n st).2 = console st ++ evs /\
    (row_extra <$> rows) `sublist_of` emails evs /\
    (length rows <= length (emails evs))%nat.
Proof.
  destruct (cycles_lift cfg
              (fun a b => exists (rows : list log_row) (evs : list event),
                 log_file b = foldl log_signal_write (log_file a) rows /\
                 console b = console a ++ evs /\
                 (row_extra <$> rows) `sublist_of` emails evs)) with
    (world := world) (n := n) (c := c) (st := st)
    as (st' & Hrun & rows & evs & Hlog & Hcon & Hsub).
  - intros a. exists [], []. rewrite app_nil_r. repeat split. apply sublist_nil_l.
  - intros a b d (r1 & e1 & L1 & C1 & S1) (r2 & e2 & L2 & C2 & S2).
    exists (r1 ++ r2), (e1 ++ e2). rewrite foldl_app, <- L1, L2, C2, C1, <- app_assoc.
    repeat split. unfold emails. rewrite fmap_app, omap_app. now apply sublist_app.
  - intros w s a _.
    destruct (process_symbol_effect cfg w s a)
      as (evs & st' & Hrun & Hcon & _ & _ &
          [[_ Hl] | (sig & last & _ & _ & _ & Hl & Hmail)]);
      rewrite Hrun; cbn [snd].
    + exists [], (Fetch s :: evs). repeat split; [exact Hl | exact Hcon | apply sublist_nil_l].
    + exists [row_of w s sig last], (Fetch s :: evs).
      repeat split; [exact Hl | exact Hcon |].
      cbn [fmap list_fmap row_of row_extra]. apply singleton_sublist_l.
      unfold emails. apply list_elem_of_omap.
      exists (notified w (body_of w s sig last)). split; [now right|].
      unfold notified. now destruct (smtp_ok w).
  - intros a. exists [], [Sleep]. repeat split. apply sublist_nil_l.
  - rewrite Hrun. cbn [snd]. exists rows, evs.
    repeat split; [exact Hlog | exact Hcon | exact Hsub |].
    apply sublist_length in Hsub. now rewrite length_fmap in Hsub.
Qed.

Lemma compute_indicators_length cfg (bars : list Q) (df : frame) :
  compute_indicators cfg bars = Ok df -> length df = length bars.
Proof.
  unfold compute_indicators, window, mbind, result_bind, mret, result_ret.
  destruct (FAST_SMA cfg <=? 0); [discriminate|].
  destruct (SLOW_SMA cfg <=? 0); [discriminate|].
  destruct (RSI_PERIOD cfg <=? 0); [discriminate|].
  intros [= <-]. apply length_imap.
Qed.

(** X17: too short a history is silent: when the download delivers fewer
    than [max(FAST_SMA, SLOW_SMA) + 1] bars, the pass asks for no e-mail and
    changes neither the memory nor the log. *)
Theorem short_history_is_silent cfg (w : response) (s : string) (st : state)
    (bars : list Q) :
  download w = Ok bars ->
  Z.of_nat (length bars) < Z.max (FAST_SMA cfg) (SLOW_SMA cfg) + 1 ->
  exists evs,
    console (process_symbol cfg w s st).2 = console st ++ evs /\
    emails evs = [] /\
    last_signals (process_symbol cfg w s st).2 = last_signals st /\
    log_file (process_symbol cfg w s st).2 = log_file st.
Proof.
  intros Hdl Hshort. step_M. rewrite Hdl. cbn.
  destruct (is_empty bars); cbn.
  { exists [Fetch s]. auto. }
  destruct (compute_indicators cfg bars) as [df|e] eqn:Hci; cbn.
  2:{ exists [Fetch s; ExceptionProcessing s e]. rewrite <- app_assoc. auto. }
  assert (Hnone : detect_signals cfg df = Ok None).
  { unfold detect_signals. rewrite (compute_indicators_length cfg bars df Hci).
    now apply Z.ltb_lt in Hshort as ->. }
  rewrite Hnone. cbn.
  destruct (iloc df (-1)) as [last|e]; cbn.
  - exists [Fetch s; InfoChecked s (now w) (close last)]. rewrite <- app_assoc. auto.
  - exists [Fetch s; ExceptionProcessing s e]. rewrite <- app_assoc. auto.
Qed.

Lemma short_history_is_silent_witness :
  exists evs,
    console (process_symbol default_config all_up "AAPL" (initial_state None)).2
      = console (initial_state None) ++ evs /\
    emails evs = [] /\
    last_signals (process_symbol default_config all_up "AAPL" (initial_state None)).2
      = last_signals (initial_state None) /\
    log_file (process_symbol default_config all_up "AAPL" (initial_state None)).2
      = log_file (initial_state None).
Proof.
  apply (short_history_is_silent default_config all_up "AAPL" (initial_state None) bars_up).
  - reflexivity.
  - vm_compute. reflexivity.
Defined.
